(** * A shallow embedding of the CI/CD scan-and-retrieve pipeline

    The development follows the Python sources: [utils.py] (text chunker),
    [analysis.py] (risk extractor, completion adapter, scan orchestrator) and
    [database.py] (relational store, vector store, RAG query path).

    Python [str] values are modelled as lists of 8-bit characters; integers
    are [Z]; dictionaries are finite maps or association lists; effects
    (stores, sleeps, backend calls) are threaded explicitly. *)

From Stdlib Require Import ZArith Ascii String Lia DecimalString DecimalNat.
From stdpp Require Import gmap strings list fin_maps.

Local Open Scope Z_scope.

(** ** Strings *)

Abbreviation str := (list ascii).

(** String literals are written [L "..."]. *)
Definition L (s : string) : str := list_ascii_of_string s.

(** ** Python slicing *)

Module Py.

(** Normalisation of one slice bound, as [PySlice_AdjustIndices] does for
    a step of 1: a negative bound counts from the end, and the result is
    clamped to the range from 0 to [len]. *)
Definition adjust (len i : Z) : Z :=
  if i <? 0 then Z.max 0 (i + len) else Z.min i len.

(** [l[start:stop]] *)
Definition slice {A} (l : list A) (start stop : Z) : list A :=
  let len := Z.of_nat (length l) in
  let a := adjust len start in
  let b := adjust len stop in
  take (Z.to_nat (b - a)) (drop (Z.to_nat a) l).

End Py.

(** ** Python string operations

    Characters are 8-bit codes classified as Python classifies the ASCII
    range; codes from 128 up are taken as caseless symbols that are neither
    whitespace nor word characters. *)

Module Str.

Definition nl : ascii := "010"%char.

Definition code (c : ascii) : N := N_of_ascii c.

Definition in_range (lo hi : N) (c : ascii) : bool :=
  ((lo <=? code c) && (code c <=? hi))%N.

Definition is_upper (c : ascii) : bool := in_range 65 90 c.
Definition is_lower (c : ascii) : bool := in_range 97 122 c.
Definition is_digit (c : ascii) : bool := in_range 48 57 c.

(** [str.isspace] on one character: tab, newline, vertical tab, form feed,
    carriage return, the four separators 28 to 31, and the space. *)
Definition is_space (c : ascii) : bool :=
  in_range 9 13 c || in_range 28 31 c || (code c =? 32)%N.

(** The class [\w] of the [re] module. *)
Definition is_word (c : ascii) : bool :=
  is_upper c || is_lower c || is_digit c || (code c =? 95)%N.

Definition lower_char (c : ascii) : ascii :=
  if is_upper c then ascii_of_N (code c + 32) else c.

(** [s.lower()] *)
Definition lower (s : str) : str := lower_char <$> s.

(** [s.startswith(pat)] *)
Fixpoint starts_with (pat s : str) : bool :=
  match pat, s with
  | [], _ => true
  | p :: pat', c :: s' => Ascii.eqb p c && starts_with pat' s'
  | _ :: _, [] => false
  end.

(** [pat in s] *)
Fixpoint contains (pat s : str) : bool :=
  starts_with pat s ||
  match s with
  | [] => false
  | _ :: s' => contains pat s'
  end.

(** Some suffix of [s], [s] itself and the empty one included, satisfies
    [f]. *)
Fixpoint any_suffix (f : str -> bool) (s : str) : bool :=
  f s ||
  match s with
  | [] => false
  | _ :: s' => any_suffix f s'
  end.

Fixpoint lstrip (s : str) : str :=
  match s with
  | c :: s' => if is_space c then lstrip s' else s
  | [] => []
  end.

Definition rstrip (s : str) : str := reverse (lstrip (reverse s)).

(** [sep.join(parts)] *)
Fixpoint join (sep : str) (parts : list str) : str :=
  match parts with
  | [] => []
  | [p] => p
  | p :: rest => p ++ sep ++ join sep rest
  end.

(** [s.strip()] *)
Definition strip (s : str) : str := rstrip (lstrip s).

End Str.

(** ** The regular expressions of the sources

    [re.search] tries the pattern at every position from the left, the end
    of the string included, and returns the first match. Each pattern of the
    sources is given as the function that matches it at one position, where
    it sees the character before the position (for [\b]) and the rest of
    the string, and returns the text of group 1. *)

Module Re.
Import Str.

Fixpoint search_from {A} (m : option ascii -> str -> option A)
         (prev : option ascii) (s : str) : option A :=
  match m prev s with
  | Some r => Some r
  | None =>
      match s with
      | [] => None
      | c :: s' => search_from m (Some c) s'
      end
  end.

Definition search {A} (m : option ascii -> str -> option A) (s : str)
  : option A := search_from m None s.

(** A literal, with [re.IGNORECASE]: the pattern literals of the sources are
    in lower case. *)
Definition lit_ci (lit : str) (s : str) : bool :=
  starts_with lit (lower s).

(** [\b] between [prev] and the head of [s]. *)
Definition word_boundary (prev : option ascii) (s : str) : bool :=
  let before := from_option is_word false prev in
  let after := from_option is_word false (head s) in
  xorb before after.

(** [re.split(pat, s)] for a literal, non-empty [pat]: the pieces between
    the successive leftmost occurrences. [skip] counts the characters of an
    occurrence still to be passed over. *)
Fixpoint split_go (pat : str) (skip : nat) (s : str) : list str :=
  match s with
  | [] => [[]]
  | c :: s' =>
      match skip with
      | S k => split_go pat k s'
      | O =>
          if starts_with pat s then [] :: split_go pat (length pat - 1) s'
          else
            match split_go pat 0 s' with
            | piece :: rest => (c :: piece) :: rest
            | [] => [[c]]
            end
      end
  end.

Definition split (pat : str) (s : str) : list str := split_go pat 0 s.

(** The characters before the first newline, when there is one. *)
Fixpoint until_newline (s : str) : option str :=
  match s with
  | [] => None
  | c :: s' =>
      if Ascii.eqb c nl then Some [] else (c ::.) <$> until_newline s'
  end.

(** [(.+?)\n] at one position. *)
Definition risk_name_at (_ : option ascii) (s : str) : option str :=
  match until_newline s with
  | Some (c :: g) => Some (c :: g)
  | _ => None
  end.

(** [\*\*Severity\*\*: (Low|Medium|High)] at one position. *)
Definition severity_at (_ : option ascii) (s : str) : option str :=
  if starts_with (L "**Severity**: ") s then
    let r := drop 14 s in
    if starts_with (L "Low") r then Some (L "Low")
    else if starts_with (L "Medium") r then Some (L "Medium")
    else if starts_with (L "High") r then Some (L "High")
    else None
  else None.

(** The lookahead [(?=\n\*\*Suggestion\*\*:|$)]; without [re.MULTILINE]
    the dollar matches at the end and before a final newline. *)
Definition reason_stop (s : str) : bool :=
  starts_with (nl :: L "**Suggestion**:") s ||
  match s with
  | [] => true
  | [c] => Ascii.eqb c nl
  | _ => false
  end.

(** [(.+?)] with [re.DOTALL] followed by the lookahead: the shortest
    non-empty text after which the lookahead holds. *)
Fixpoint reason_text (s : str) : option str :=
  match s with
  | [] => None
  | c :: s' =>
      if reason_stop s' then Some [c] else (c ::.) <$> reason_text s'
  end.

(** [\*\*Reason\*\*: (.+?)(?=\n\*\*Suggestion\*\*:|$)] at one
    position. *)
Definition reason_at (_ : option ascii) (s : str) : option str :=
  if starts_with (L "**Reason**: ") s then reason_text (drop 12 s) else None.

Definition hit (b : bool) : option unit := if b then Some () else None.

(** [registry|image] *)
Definition registry_at (_ : option ascii) (s : str) : option unit :=
  hit (lit_ci (L "registry") s || lit_ci (L "image") s).

(** [script|sh\b|bash|command] *)
Definition shell_at (_ : option ascii) (s : str) : option unit :=
  hit (lit_ci (L "script") s
       || (lit_ci (L "sh") s && word_boundary (s !! 1%nat) (drop 2 s))
       || lit_ci (L "bash") s
       || lit_ci (L "command") s).

(** [network|host|bridge|overlay] *)
Definition network_at (_ : option ascii) (s : str) : option unit :=
  hit (lit_ci (L "network") s || lit_ci (L "host") s
       || lit_ci (L "bridge") s || lit_ci (L "overlay") s).

(** [gitlab|runner|token] *)
Definition gitlab_at (_ : option ascii) (s : str) : option unit :=
  hit (lit_ci (L "gitlab") s || lit_ci (L "runner") s
       || lit_ci (L "token") s).

(** The truth value of a match object or of [None]. *)
Definition found {A} (r : option A) : bool :=
  match r with Some _ => true | None => false end.

End Re.

(** ** utils.py: [chunk_text] *)

Module Utils.

(** The [while start < text_length] loop. It is not structurally
    recursive (nothing in the source bounds the number of iterations), so
    the embedding takes a number of permitted iterations; [None] means the
    loop was still running when they were used up. *)
Fixpoint chunk_loop (fuel : nat) (text : str) (chunk_size overlap : Z)
         (start : Z) (chunks : list str) : option (list str) :=
  let text_length := Z.of_nat (length text) in
  if start <? text_length then
    match fuel with
    | O => None
    | S fuel' =>
        let end_ := Z.min (start + chunk_size) text_length in
        chunk_loop fuel' text chunk_size overlap
                   (start + (chunk_size - overlap))
                   (chunks ++ [Py.slice text start end_])
    end
  else Some chunks.

Definition chunk_text (fuel : nat) (text : str) (chunk_size overlap : Z)
  : option (list str) :=
  chunk_loop fuel text chunk_size overlap 0 [].

(** The same loop, recording the pair [(start, end)] of every iteration
    instead of the slice it cuts. *)
Fixpoint window_loop (fuel : nat) (text : str) (chunk_size overlap : Z)
         (start : Z) (ws : list (Z * Z)) : option (list (Z * Z)) :=
  let text_length := Z.of_nat (length text) in
  if start <? text_length then
    match fuel with
    | O => None
    | S fuel' =>
        let end_ := Z.min (start + chunk_size) text_length in
        window_loop fuel' text chunk_size overlap
                    (start + (chunk_size - overlap))
                    (ws ++ [(start, end_)])
    end
  else Some ws.

Definition chunk_windows (fuel : nat) (text : str) (chunk_size overlap : Z)
  : option (list (Z * Z)) :=
  window_loop fuel text chunk_size overlap 0 [].

Definition cut (text : str) (w : Z * Z) : str := Py.slice text w.1 w.2.

(** The windows the specification describes: the [n] first terms of the
    arithmetic sequence of step [chunk_size - overlap], each window
    truncated at the end of the text. *)
Definition arith_windows (len chunk_size overlap : Z) (k0 n : nat)
  : list (Z * Z) :=
  (fun k : nat =>
     let st := Z.of_nat k * (chunk_size - overlap) in
     (st, Z.min (st + chunk_size) len)) <$> seq k0 n.

(** Number of starting offsets below [len] for a positive step. *)
Definition window_count (len step : Z) : nat :=
  Z.to_nat ((len + step - 1) / step).

(** Adjacent windows share exactly [overlap] positions, except possibly
    when the second one is the final window (the property as the
    specification words it). *)
Definition overlap_except_final (overlap : Z) (ws : list (Z * Z)) : Prop :=
  forall (k : nat) (w1 w2 : Z * Z),
    ws !! k = Some w1 -> ws !! S k = Some w2 ->
    (S (S k) < length ws)%nat ->
    w1.2 - w2.1 = overlap.

End Utils.

(** ** analysis.py: the risk extractor *)

Module Analysis.
Import Str Re.

(** The dictionary [{"risk_name": ..., "severity": ...}] built for every
    finding. *)
Record Finding := { risk_name : str; severity : str }.

#[global] Instance Finding_eq_dec : EqDecision Finding.
Proof. solve_decision. Defined.

Definition delimiter : str := L "### Risk:".

Definition risk_name_match (block : str) : option str :=
  search risk_name_at block.
Definition severity_match (block : str) : option str :=
  search severity_at block.
Definition reason_match (block : str) : option str :=
  search reason_at block.

(** One iteration of [for block in risk_blocks]; [continue] leaves
    [detected] as it is. *)
Definition loop_body (content : str) (detected : list Finding) (block : str)
  : list Finding :=
  match risk_name_match block, severity_match block, reason_match block with
  | Some name_group, Some severity_group, Some reason_group =>
      let risk_name := strip name_group in
      let severity := severity_group in
      let reason := strip reason_group in
      if contains (L "registry") (lower risk_name)
         && negb (found (search registry_at content)) then detected
      else if contains (L "shell") (lower risk_name)
         && negb (found (search shell_at content)) then detected
      else if contains (L "network") (lower risk_name)
         && negb (found (search network_at content)) then detected
      else if contains (L "gitlab") (lower risk_name)
         && negb (found (search gitlab_at content)) then detected
      else detected ++ [{| risk_name := risk_name; severity := severity |}]
  | _, _, _ => detected
  end.

Definition detect_owasp_risks (analysis_text content : str) : list Finding :=
  let risk_blocks := drop 1 (split delimiter analysis_text) in
  foldl (loop_body content) [] risk_blocks.

(** *** Vocabulary used to state the behaviour of the extractor *)

(** The candidate finding of a block: present when the three patterns
    match. *)
Definition candidate (block : str) : option Finding :=
  match risk_name_match block, severity_match block, reason_match block with
  | Some name_group, Some severity_group, Some _ =>
      Some {| risk_name := strip name_group; severity := severity_group |}
  | _, _, _ => None
  end.

(** [sh] in any case, at the end of the text or before a character that is
    not a word character. *)
Definition sh_at_word_end (s : str) : bool :=
  starts_with (L "sh") (lower s) &&
  match drop 2 s with
  | [] => true
  | c :: _ => negb (is_word c)
  end.

(** The four keyword rules as the source has them: the keyword looked for
    in the lower-cased risk name, and what the content must contain. *)
Definition needs_registry (content : str) : bool :=
  contains (L "registry") (lower content)
  || contains (L "image") (lower content).
Definition needs_shell (content : str) : bool :=
  contains (L "script") (lower content)
  || any_suffix sh_at_word_end content
  || contains (L "bash") (lower content)
  || contains (L "command") (lower content).
Definition needs_network (content : str) : bool :=
  contains (L "network") (lower content)
  || contains (L "host") (lower content)
  || contains (L "bridge") (lower content)
  || contains (L "overlay") (lower content).
Definition needs_gitlab (content : str) : bool :=
  contains (L "gitlab") (lower content)
  || contains (L "runner") (lower content)
  || contains (L "token") (lower content).

Definition keyword_rules : list (str * (str -> bool)) :=
  [(L "registry", needs_registry); (L "shell", needs_shell);
   (L "network", needs_network); (L "gitlab", needs_gitlab)].

(** A finding named [name] is not corroborated by [content]: some rule's
    keyword occurs in the lower-cased name and the content lacks what the
    rule asks for. *)
Definition uncorroborated (name content : str) : bool :=
  existsb (fun rule : str * (str -> bool) =>
             contains rule.1 (lower name) && negb (rule.2 content))
          keyword_rules.



(** *** The output format of the completion service

    A risk block as the prompt asks for it: the delimiter, the name on the
    rest of the line, and the three marked sections. *)

Inductive Severity := Low | Medium | High.

Definition severity_str (sv : Severity) : str :=
  match sv with
  | Low => L "Low"
  | Medium => L "Medium"
  | High => L "High"
  end.

Record RiskBlock := {
  b_name : str;
  b_severity : Severity;
  b_reason : str;
  b_suggestion : str
}.

(** The text of a block after its delimiter. *)
Definition block_body (b : RiskBlock) : str :=
  L " " ++ b_name b ++ [nl] ++
  L "**Severity**: " ++ severity_str (b_severity b) ++ [nl] ++
  L "**Reason**: " ++ b_reason b ++ [nl] ++
  L "**Suggestion**: " ++ b_suggestion b ++ [nl].

Definition render_block (b : RiskBlock) : str := delimiter ++ block_body b.

Definition render (bs : list RiskBlock) : str := concat (render_block <$> bs).



Definition finding_of (b : RiskBlock) : Finding :=
  {| risk_name := strip (b_name b);
     severity := severity_str (b_severity b) |}.

(** *** Sample inputs *)

Definition registry_block : RiskBlock :=
  {| b_name := L "Insecure Registry Access";
     b_severity := High;
     b_reason := L "pulls from an unauthenticated source";
     b_suggestion := L "require credentials" |}.


Definition secret_block : RiskBlock :=
  {| b_name := L "Hardcoded Secret";
     b_severity := Medium;
     b_reason := L "password in plain text";
     b_suggestion := L "use a vault" |}.

End Analysis.

(** ** Exceptions and logged effects

    A computation either returns a value or raises an exception carrying
    its message [str(e)], and appends to a log the backend calls it makes and
    the pauses it takes. Messages shown in the user interface are not
    logged. *)

Module Eff.

Inductive Exc (A : Type) : Type :=
| Ok (a : A)
| Exn (msg : str).
Arguments Ok {A} a.
Arguments Exn {A} msg.

Inductive Event : Type :=
| Call (attempt : nat)
| Sleep (seconds : Z).

Definition M (A : Type) : Type := list Event -> Exc A * list Event.

Definition ret {A} (a : A) : M A := fun log => (Ok a, log).

Definition raise {A} (msg : str) : M A := fun log => (Exn msg, log).

Definition bind {A B} (m : M A) (k : A -> M B) : M B :=
  fun log =>
    match m log with
    | (Ok a, log') => k a log'
    | (Exn msg, log') => (Exn msg, log')
    end.

Definition emit (ev : Event) : M unit := fun log => (Ok tt, log ++ [ev]).

Definition lift {A} (r : Exc A) : M A := fun log => (r, log).

(** [try: body / except Exception as e: handler(str(e))] *)
Definition try_except {A} (body : M A) (handler : str -> M A) : M A :=
  fun log =>
    match body log with
    | (Ok a, log') => (Ok a, log')
    | (Exn msg, log') => handler msg log'
    end.

(** The value of a computation does not depend on the log it starts from,
    and what it appends does not either. *)
Definition log_independent {A} (m : M A) : Prop :=
  forall log, m log = ((m []).1, log ++ (m []).2).

End Eff.

Notation "'do' x <- m ; k" := (Eff.bind m (fun x => k))
  (at level 10, x name, m at level 100, k at level 200).
Notation "'exec' m ; k" := (Eff.bind m (fun _ => k))
  (at level 10, m at level 100, k at level 200).

(** ** analysis.py: the completion adapters *)

Module Completion.
Import Str Eff.

(** What the hosted model answers to one [generate_content] call: whether
    the response has a first candidate with content, and what reading
    [response.text] gives. *)
Record Response := {
  has_candidate : bool;
  text : Exc str
}.

(** The hosted backend: the outcome of the call made at each attempt. *)
Definition Backend := nat -> Exc Response.

Definition max_retries : nat := 3.

Definition call (backend : Backend) (attempt : nat) : M Response :=
  exec emit (Call attempt); lift (backend attempt).

(** The body of [for attempt in range(max_retries)]: [Some v] stands for
    [return v] and [None] for [continue]. The three strings are the
    answer for a response without candidate and the prefixes of the two
    failure strings. *)
Definition attempt_body (no_candidate quota_failure failure : str)
           (backend : Backend) (attempt : nat) : M (option str) :=
  try_except
    (do response <- call backend attempt;
     if has_candidate response then
       do t <- lift (text response); ret (Some t)
     else ret (Some no_candidate))
    (fun e =>
       if contains (L "quota") (lower e) then
         if (attempt <? max_retries - 1)%nat then
           exec emit (Sleep 60); ret None
         else ret (Some (quota_failure ++ e))
       else ret (Some (failure ++ e))).

(** The [for] loop; falling out of it returns [None]. *)
Fixpoint for_attempts (body : nat -> M (option str)) (attempts : list nat)
  : M (option str) :=
  match attempts with
  | [] => ret None
  | attempt :: rest =>
      do r <- body attempt;
      match r with
      | Some v => ret (Some v)
      | None => for_attempts body rest
      end
  end.

Definition analyze_with_gemini (backend : Backend) : M (option str) :=
  for_attempts
    (attempt_body (L "No vulnerabilities detected in the provided code.")
                  (L "Analysis failed due to quota limit: ")
                  (L "Analysis failed: ") backend)
    (seq 0 max_retries).

(** [analyze_with_ollama]: one call, any exception turned into a failure
    string. *)
Definition analyze_with_ollama (backend : Exc str) : M (option str) :=
  try_except
    (exec emit (Call 0); do t <- lift backend; ret (Some t))
    (fun e => ret (Some (L "Analysis failed: " ++ e))).

(** The values [generate_rag_response] can receive as [context]. *)
Inductive Item : Type :=
| ItemStr (s : str)
| ItemList (l : list str).

Inductive Context : Type :=
| NotAList
| AList (items : list Item).

Inductive ModelType := OLLAMA | Gemini.

(** [not context or not isinstance(context, list) or
    context[0] == ["no related files found"]] *)
Definition no_context (context : Context) : bool :=
  match context with
  | NotAList => true
  | AList [] => true
  | AList (ItemList [s] :: _) =>
      bool_decide (s = L "no related files found")
  | AList _ => false
  end.

Definition generate_rag_response (context : Context) (model_type : ModelType)
           (ollama : Exc str) (backend : Backend) : M (option str) :=
  try_except
    (if no_context context then
       ret (Some (L "No related files found in the scan results."))
     else
       match model_type with
       | OLLAMA => exec emit (Call 0); do t <- lift ollama; ret (Some t)
       | Gemini =>
           for_attempts
             (attempt_body
                (L "No response generated by Gemini. Please try again later.")
                (L "Response generation failed due to quota limit: ")
                (L "Response generation failed: ") backend)
             (seq 0 max_retries)
       end)
    (fun e => ret (Some (L "Response generation failed: " ++ e))).

(** A failure recognised as a quota failure by the adapters. *)
Definition quota_error (msg : str) : bool := contains (L "quota") (lower msg).

(** *** Vocabulary used to state the retry policy *)

(** What one attempt obtains from the backend: the text of the answer, the
    stand-in for a response without candidate, or the exception raised by
    the call or by reading the text. *)
Definition attempt_result (no_candidate : str) (backend : Backend)
           (attempt : nat) : Exc str :=
  match backend attempt with
  | Ok response =>
      if has_candidate response then text response else Ok no_candidate
  | Exn e => Exn e
  end.

(** The effects of [n] attempts: the calls, with a pause of 60 seconds
    before every call but the first. *)
Definition retry_trace (n : nat) : list Event :=
  Call 0 :: flat_map (fun k => [Sleep 60; Call k]) (seq 1 (n - 1)).

(** The retry policy: the loop returns a string after [n] attempts, between
    one and [max_retries]; every attempt before the last met a quota
    failure; the last attempt either got an answer, or met a quota failure
    as the last permitted attempt, or met another failure. *)
Definition retry_outcome (no_candidate quota_failure failure : str)
           (backend : Backend) (log : list Event)
           (result : Exc (option str) * list Event) : Prop :=
  exists (n : nat) (s : str),
    (1 <= n <= max_retries)%nat /\
    result = (Ok (Some s), log ++ retry_trace n) /\
    (forall k, (k < n - 1)%nat ->
       exists e, attempt_result no_candidate backend k = Exn e /\
                 quota_error e = true) /\
    match attempt_result no_candidate backend (n - 1) with
    | Ok t => s = t
    | Exn e =>
        if quota_error e then n = max_retries /\ s = quota_failure ++ e
        else s = failure ++ e
    end.

(** Backends used in the examples. *)
Definition always_quota : Backend :=
  fun _ => Exn (L "429 Quota exceeded").
Definition broken : Backend :=
  fun _ => Exn (L "connection reset").

End Completion.

(** ** Python literals: [str(risks)] and [eval]

    [store_in_database] and the vector store keep the list of findings as
    the text [str(risks)]; [load_risk_count_from_db] reads it back with
    [eval]. *)

Module PyRepr.
Import Str.

Definition squote : ascii := "039"%char.
Definition dquote : ascii := "034"%char.
Definition backslash : ascii := "092"%char.

(** A dictionary with string keys and values, in insertion order. *)
Definition Dict := list (str * str).

(** [d[key]]: the value bound last; [None] stands for [KeyError]. *)
Fixpoint dict_get (key : str) (d : Dict) : option str :=
  match d with
  | [] => None
  | (k, v) :: d' =>
      match dict_get key d' with
      | Some v' => Some v'
      | None => if bool_decide (k = key) then Some v else None
      end
  end.

Definition hex_digit (n : N) : ascii :=
  if (n <? 10)%N then ascii_of_N (48 + n) else ascii_of_N (87 + n).

Definition hex_val (c : ascii) : option N :=
  if is_digit c then Some (code c - 48)%N
  else if in_range 97 102 c then Some (code c - 87)%N
  else if in_range 65 70 c then Some (code c - 55)%N
  else None.

(** [str.isprintable] on one character of the first 256 code points. *)
Definition is_printable (c : ascii) : bool :=
  in_range 32 126 c || (in_range 161 255 c && negb (code c =? 173)%N).

(** The quote [repr] chooses: the double quote when the text holds a single
    quote and no double quote, the single quote otherwise. *)
Definition quote_for (s : str) : ascii :=
  if bool_decide (squote ∈ s) && negb (bool_decide (dquote ∈ s))
  then dquote else squote.

Definition escape_char (q c : ascii) : str :=
  if Ascii.eqb c q || Ascii.eqb c backslash then [backslash; c]
  else if (code c =? 9)%N then L "\t"
  else if (code c =? 10)%N then L "\n"
  else if (code c =? 13)%N then L "\r"
  else if is_printable c then [c]
  else L "\x" ++ [hex_digit (code c / 16); hex_digit (code c mod 16)].

(** [repr(s)] for a string. *)
Definition repr_str (s : str) : str :=
  let q := quote_for s in
  q :: flat_map (escape_char q) s ++ [q].

Definition repr_pair (kv : str * str) : str :=
  repr_str kv.1 ++ L ": " ++ repr_str kv.2.

(** [repr] of a dictionary. *)
Definition repr_dict (d : Dict) : str :=
  L "{" ++ join (L ", ") (repr_pair <$> d) ++ L "}".

(** [str] of a list of dictionaries. *)
Definition str_list (ds : list Dict) : str :=
  L "[" ++ join (L ", ") (repr_dict <$> ds) ++ L "]".

(** The body of a string literal opened by the quote [q], and what follows
    its closing quote. Escapes other than the seven below are outside the
    literals read here and give [None]. *)
Fixpoint parse_str_body (q : ascii) (s : str) : option (str * str) :=
  match s with
  | [] => None
  | c :: s1 =>
      if Ascii.eqb c q then Some ([], s1)
      else if Ascii.eqb c backslash then
        match s1 with
        | [] => None
        | e :: s2 =>
            let continue_with (ch : ascii) (rest : str) :=
              match parse_str_body q rest with
              | Some (body, after) => Some (ch :: body, after)
              | None => None
              end in
            if Ascii.eqb e backslash then continue_with backslash s2
            else if Ascii.eqb e squote then continue_with squote s2
            else if Ascii.eqb e dquote then continue_with dquote s2
            else if Ascii.eqb e "n"%char then continue_with nl s2
            else if Ascii.eqb e "r"%char then continue_with "013"%char s2
            else if Ascii.eqb e "t"%char then continue_with "009"%char s2
            else if Ascii.eqb e "x"%char then
              match s2 with
              | h1 :: h2 :: s3 =>
                  match hex_val h1, hex_val h2 with
                  | Some a, Some b =>
                      match parse_str_body q s3 with
                      | Some (body, after) =>
                          Some (ascii_of_N (16 * a + b) :: body, after)
                      | None => None
                      end
                  | _, _ => None
                  end
              | _ => None
              end
            else None
        end
      else if Ascii.eqb c nl then None
      else
        match parse_str_body q s1 with
        | Some (body, after) => Some (c :: body, after)
        | None => None
        end
  end.

(** The character that one unit of a literal body stands for: a plain
    character, or one of the escapes read by [parse_str_body]. *)
Definition decode_unit (q : ascii) (unit : str) : option ascii :=
  match unit with
  | [c] =>
      if Ascii.eqb c q || Ascii.eqb c backslash || Ascii.eqb c nl then None
      else Some c
  | [b; e] =>
      if Ascii.eqb b q || negb (Ascii.eqb b backslash) then None
      else if Ascii.eqb e backslash then Some backslash
      else if Ascii.eqb e squote then Some squote
      else if Ascii.eqb e dquote then Some dquote
      else if Ascii.eqb e "n"%char then Some nl
      else if Ascii.eqb e "r"%char then Some "013"%char
      else if Ascii.eqb e "t"%char then Some "009"%char
      else None
  | [b; e; h1; h2] =>
      if Ascii.eqb b q || negb (Ascii.eqb b backslash) then None
      else if Ascii.eqb e backslash || Ascii.eqb e squote
              || Ascii.eqb e dquote || Ascii.eqb e "n"%char
              || Ascii.eqb e "r"%char || Ascii.eqb e "t"%char
              || negb (Ascii.eqb e "x"%char) then None
      else
        match hex_val h1, hex_val h2 with
        | Some a, Some b => Some (ascii_of_N (16 * a + b))
        | _, _ => None
        end
  | _ => None
  end.

Definition parse_str (s : str) : option (str * str) :=
  match s with
  | q :: s1 =>
      if Ascii.eqb q squote || Ascii.eqb q dquote then parse_str_body q s1
      else None
  | [] => None
  end.

(** The text after the token [tok], when the text starts with it. *)
Definition expect (tok s : str) : option str :=
  if starts_with tok s then Some (drop (length tok) s) else None.

(** The pairs of a dictionary display up to its closing brace. *)
Fixpoint parse_pairs (fuel : nat) (s : str) : option (Dict * str) :=
  match fuel with
  | O => None
  | S fuel' =>
      '(k, s1) ← parse_str s;
      s2 ← expect (L ": ") s1;
      '(v, s3) ← parse_str s2;
      match expect (L "}") s3 with
      | Some s4 => Some ([(k, v)], s4)
      | None =>
          s4 ← expect (L ", ") s3;
          '(rest, s5) ← parse_pairs fuel' s4;
          Some ((k, v) :: rest, s5)
      end
  end.

Definition parse_dict (fuel : nat) (s : str) : option (Dict * str) :=
  s1 ← expect (L "{") s;
  match expect (L "}") s1 with
  | Some s2 => Some ([], s2)
  | None => parse_pairs fuel s1
  end.

(** The items of a list display up to its closing bracket. *)
Fixpoint parse_items (fuel : nat) (s : str) : option (list Dict * str) :=
  match fuel with
  | O => None
  | S fuel' =>
      '(d, s1) ← parse_dict fuel' s;
      match expect (L "]") s1 with
      | Some s2 => Some ([d], s2)
      | None =>
          s2 ← expect (L ", ") s1;
          '(rest, s3) ← parse_items fuel' s2;
          Some (d :: rest, s3)
      end
  end.

(** [eval(s)] on the text of a list of dictionaries of strings; [None] for
    any other text. Every step of the parsers consumes a character, so the
    length of the text bounds the depth. *)
Definition eval_list (s : str) : option (list Dict) :=
  s1 ← expect (L "[") s;
  match expect (L "]") s1 with
  | Some [] => Some []
  | Some _ => None
  | None =>
      match parse_items (S (length s)) s1 with
      | Some (ds, []) => Some ds
      | _ => None
      end
  end.

(** Iterations that suffice to read a list of dictionaries. *)
Fixpoint items_bound (ds : list Dict) : nat :=
  match ds with
  | [] => 0
  | d :: rest => S (length d + items_bound rest)
  end.

End PyRepr.

(** ** database.py: the relational store and the vector store *)

Module Database.
Import Str Analysis PyRepr Eff.

(** The finding as the dictionary the extractor builds. *)
Definition finding_dict (f : Finding) : Dict :=
  [(L "risk_name", risk_name f); (L "severity", severity f)].

(** [str(risks)] *)
Definition str_risks (risks : list Finding) : str :=
  str_list (finding_dict <$> risks).

(** A row of [scan_results]. The [timestamp] column, which no query reads,
    is left out. *)
Record ScanRecord := {
  id : nat;
  file_path : str;
  content : str;
  risks : str;
  analysis : str
}.

(** The table, with the counter behind [AUTOINCREMENT]. *)
Record Table := {
  rows : list ScanRecord;
  last_id : nat
}.

(** The table after [reset_databases]. *)
Definition empty_table : Table := {| rows := []; last_id := 0 |}.

Definition percent : ascii := "%"%char.
Definition underscore : ascii := "_"%char.

(** The [LIKE] operator of SQLite: a percent sign stands for any text, an
    underscore for any one character, and letters match in either case. *)
Fixpoint like (pattern : str) : str -> bool :=
  match pattern with
  | [] => fun s => match s with [] => true | _ => false end
  | c :: pattern' =>
      if Ascii.eqb c percent then
        fix any (s : str) : bool :=
          like pattern' s ||
          match s with
          | [] => false
          | _ :: s' => any s'
          end
      else if Ascii.eqb c underscore then
        fun s => match s with [] => false | _ :: s' => like pattern' s' end
      else
        fun s =>
          match s with
          | [] => false
          | d :: s' =>
              Ascii.eqb (lower_char c) (lower_char d) && like pattern' s'
          end
  end.

(** [DELETE FROM scan_results WHERE file_path LIKE ?] *)
Definition delete_like (pattern : str) (t : Table) : Table :=
  {| rows := filter (fun r => like pattern (file_path r) = false) (rows t);
     last_id := last_id t |}.

(** [DELETE FROM scan_results] *)
Definition delete_all (t : Table) : Table :=
  {| rows := []; last_id := last_id t |}.

(** [INSERT INTO scan_results (file_path, content, risks, analysis)]; the
    statements on the table are taken to succeed. *)
Definition store_in_database (file_path content : str)
           (risks : list Finding) (analysis : str) (t : Table) : Table :=
  {| rows := rows t ++ [{| id := S (last_id t);
                           file_path := file_path;
                           content := content;
                           risks := str_risks risks;
                           analysis := analysis |}];
     last_id := S (last_id t) |}.

(** *** Risk counts *)

Abbreviation RiskCount := (gmap str (gmap str Z)).

Definition zero_counts : gmap str Z :=
  <[L "Low" := 0]> (<[L "Medium" := 0]> (<[L "High" := 0]> ∅)).

(** The two statements
    [if risk_name not in risk_count: risk_count[risk_name] = {...}] and
    [risk_count[risk_name][severity] += 1]. The flag tells whether the
    second raised [KeyError]; the first has then taken effect all the
    same. *)
Definition count_one (risk_name severity : str) (risk_count : RiskCount)
  : RiskCount * bool :=
  let risk_count1 :=
    match risk_count !! risk_name with
    | Some _ => risk_count
    | None => <[risk_name := zero_counts]> risk_count
    end in
  match risk_count1 !! risk_name with
  | Some counts =>
      match counts !! severity with
      | Some n =>
          (<[risk_name := <[severity := n + 1]> counts]> risk_count1, false)
      | None => (risk_count1, true)
      end
  | None => (risk_count1, true)
  end.

(** [for risk in detected_risks] over the findings of the extractor. *)
Fixpoint count_risks (detected_risks : list Finding) (risk_count : RiskCount)
  : RiskCount * bool :=
  match detected_risks with
  | [] => (risk_count, false)
  | risk :: rest =>
      let '(risk_count', raised) :=
        count_one (risk_name risk) (severity risk) risk_count in
      if raised then (risk_count', true) else count_risks rest risk_count'
  end.

(** The same loop over the dictionaries read back by [eval]; an exception
    ends the whole replay, which is [None]. *)
Fixpoint count_dicts (detected_risks : list Dict) (risk_count : RiskCount)
  : option RiskCount :=
  match detected_risks with
  | [] => Some risk_count
  | risk :: rest =>
      risk_name ← dict_get (L "risk_name") risk;
      severity ← dict_get (L "severity") risk;
      let '(risk_count', raised) := count_one risk_name severity risk_count in
      if raised then None else count_dicts rest risk_count'
  end.

Fixpoint replay_rows (rs : list ScanRecord) (risk_count : RiskCount)
  : option RiskCount :=
  match rs with
  | [] => Some risk_count
  | row :: rest =>
      detected_risks ← eval_list (risks row);
      risk_count' ← count_dicts detected_risks risk_count;
      replay_rows rest risk_count'
  end.

Definition load_risk_count_from_db (t : Table) : option RiskCount :=
  replay_rows (rows t) ∅.

(** [risk_count[name][sev]] read as a number, 0 when a key is absent. *)
Definition count_of (rc : RiskCount) (name sev : str) : Z :=
  match rc !! name with
  | Some counts => default 0 (counts !! sev)
  | None => 0
  end.

(** *** The vector collection *)

Inductive Value : Type :=
| VStr (s : str)
| VInt (n : Z).

Abbreviation Metadata := (gmap str Value).

Record VectorDoc := {
  v_id : str;
  v_document : str;
  v_metadata : Metadata
}.

(** The embeddings are not represented: what the nearest-neighbour query
    returns is an input of [query_vectors] below. *)
Abbreviation Collection := (list VectorDoc).

Definition slash : ascii := "/"%char.

(** [file_path.replace('\\', '/')] *)
Definition normalize (file_path : str) : str :=
  (fun c => if Ascii.eqb c backslash then slash else c) <$> file_path.

Fixpoint take_until_slash (s : str) : str :=
  match s with
  | [] => []
  | c :: s' => if Ascii.eqb c slash then [] else c :: take_until_slash s'
  end.

Fixpoint drop_until_slash (s : str) : str :=
  match s with
  | [] => []
  | c :: s' => if Ascii.eqb c slash then s else drop_until_slash s'
  end.

Fixpoint drop_slashes (s : str) : str :=
  match s with
  | [] => []
  | c :: s' => if Ascii.eqb c slash then drop_slashes s' else s
  end.

(** [os.path.basename], in its POSIX version. *)
Definition basename (p : str) : str :=
  reverse (take_until_slash (reverse p)).

(** [os.path.dirname], in its POSIX version. *)
Definition dirname (p : str) : str :=
  let head := reverse (drop_until_slash (reverse p)) in
  match drop_slashes (reverse head) with
  | [] => head
  | stripped => reverse stripped
  end.

(** The decimal numeral of [i] in an f-string. *)
Definition nat_str (i : nat) : str :=
  list_ascii_of_string (NilEmpty.string_of_uint (Nat.to_uint i)).

(** [chunk_text(content)] with the default sizes, for which the loop needs
    at most as many iterations as the text has characters. *)
Definition chunk_text_default (content : str) : list str :=
  default [] (Utils.chunk_text (length content) content 1000 200).

Definition metadata_base (file_path content analysis : str)
           (detect_owasp_risks_func : str -> str -> list Finding)
  : Metadata :=
  <[L "file_path" := VStr file_path]>
  (<[L "filename" := VStr (lower (basename file_path))]>
  (<[L "directory" := VStr (dirname file_path)]>
  (<[L "risks" := VStr (str_risks (detect_owasp_risks_func analysis content))]>
  (<[L "content_type" := VStr (L "cicd_config")]> ∅)))).

Definition indent : str := L "        ".

Definition summary_doc (file_path filename content analysis : str) : str :=
  [nl] ++ indent ++ L "[File Path] " ++ file_path ++
  [nl] ++ indent ++ L "[Filename] " ++ filename ++
  [nl] ++ indent ++ L "[Content Summary] " ++ take 2000 content ++
  [nl] ++ indent ++ L "[Risk Analysis] " ++ take 1000 analysis ++
  [nl] ++ indent.

(** The documents handed to [collection.add]: one per chunk, and the
    summary document under the bare normalized path. *)
Definition batch (file_path content analysis : str)
           (detect_owasp_risks_func : str -> str -> list Finding)
  : list VectorDoc :=
  let normalized_path := normalize file_path in
  let base := metadata_base file_path content analysis
                            detect_owasp_risks_func in
  imap (fun i chunk =>
          {| v_id := normalized_path ++ L "_chunk_" ++ nat_str i;
             v_document := chunk;
             v_metadata := <[L "chunk_id" := VInt (Z.of_nat i)]> base |})
       (chunk_text_default content)
  ++ [{| v_id := normalized_path;
         v_document := summary_doc file_path (lower (basename file_path))
                                   content analysis;
         v_metadata := base |}].

(** [store_in_vector_db]. The documents whose id starts with the normalized
    path are deleted, then the batch is added. [add_ok] tells whether the
    addition, which computes the embeddings, succeeds; when it does not the
    exception is raised again, which is the flag of the result. *)
Definition store_in_vector_db (file_path content analysis : str)
           (detect_owasp_risks_func : str -> str -> list Finding)
           (add_ok : bool) (collection : Collection) : Collection * bool :=
  let normalized_path := normalize file_path in
  let kept :=
    filter (fun d => starts_with normalized_path (v_id d) = false)
           collection in
  if add_ok
  then (kept ++ batch file_path content analysis detect_owasp_risks_func,
        false)
  else (kept, true).

(** *** The query path *)

(** The longest run of word characters at the head of a text, and the
    rest. *)
Fixpoint word_run (s : str) : str * str :=
  match s with
  | c :: s' =>
      if is_word c then let '(w, rest) := word_run s' in (c :: w, rest)
      else ([], s)
  | [] => ([], [])
  end.

(** [\b(\w+(?:\.\w+)?)\b] at one position. Both quantifiers are greedy,
    and the greedy choice never has to be undone: a longest run of word
    characters always ends at a word boundary. *)
Definition filename_at (prev : option ascii) (s : str) : option str :=
  if Re.word_boundary prev s then
    match word_run s with
    | ([], _) => None
    | (w, rest) =>
        match rest with
        | c :: rest' =>
            if Ascii.eqb c "."%char then
              match word_run rest' with
              | ([], _) => Some w
              | (ext, _) => Some (w ++ L "." ++ ext)
              end
            else Some w
        | [] => Some w
        end
    end
  else None.

(** What [collection.query] returns for one query embedding. *)
Record QueryResult := {
  documents : list (list str);
  metadatas : list (list Metadata)
}.

(** [meta.get('filename', '').lower()], which raises on a value that is
    not a string. *)
Definition stored_filename_of (meta : Metadata) : Exc str :=
  match meta !! L "filename" with
  | None => Ok []
  | Some (VStr s) => Ok (lower s)
  | Some (VInt _) => Exn (L "'int' object has no attribute 'lower'")
  end.

(** The loop over the candidates; reaching an exact match replaces what was
    collected and leaves the loop. *)
Fixpoint filter_docs (target_filename : option str)
         (candidates : list (str * Metadata)) (filtered_docs : list str)
  : Exc (list str) :=
  match candidates with
  | [] => Ok filtered_docs
  | (doc, meta) :: rest =>
      match stored_filename_of meta with
      | Exn e => Exn e
      | Ok stored_filename =>
          match target_filename with
          | Some (c :: t) =>
              let target := c :: t in
              if bool_decide (target = stored_filename) then Ok [doc]
              else if contains target stored_filename
                      || contains stored_filename target
              then filter_docs target_filename rest (filtered_docs ++ [doc])
              else filter_docs target_filename rest filtered_docs
          | _ => filter_docs target_filename rest filtered_docs
          end
      end
  end.

(** The two shapes of the result: a list holding the list of documents, or
    the list holding the sentence "No related files found.". *)
Inductive Retrieved : Type :=
| Docs (docs : list str)
| NoRelated.

(** [query_vectors]. [query] is what the embedding of the question and the
    query of the collection with [n_results=5] give: the nearest documents
    with their metadata, or an exception. *)
Definition query_vectors (question : str) (query : Exc QueryResult)
  : Retrieved :=
  let target_filename := lower <$> Re.search filename_at question in
  match query with
  | Exn _ => NoRelated
  | Ok results =>
      match documents results, metadatas results with
      | docs0 :: _, metas0 :: _ =>
          match filter_docs target_filename (zip docs0 metas0) [] with
          | Exn _ => NoRelated
          | Ok [] => Docs docs0
          | Ok filtered_docs => Docs filtered_docs
          end
      | _, _ => NoRelated
      end
  end.



(** *** Sample inputs *)



End Database.

(** ** analysis.py: the scan orchestrator *)

Module Orchestrator.
Import Str Analysis Eff Completion PyRepr Database.

(** What the environment holds for one file listed by [os.walk]: its path,
    what [load_file_content] gives ([None] when it returns [None] or
    raises), what the two backends answer when asked to analyse it, and
    whether the addition to the vector collection succeeds. *)
Record FileObs := {
  f_path : str;
  f_content : option str;
  f_ollama : Exc str;
  f_gemini : Backend;
  f_add_ok : bool
}.

(** An entry of the list [results]. *)
Record Result := {
  r_file_path : str;
  r_risks : list Finding;
  r_analysis : str
}.

(** The two values [scan_directory] returns, and the state it works on:
    the table, the collection, and the log of backend calls and pauses.
    The progress bar and the messages are not represented. *)
Record ScanState := {
  db : Table;
  collection : Collection;
  results : list Result;
  risk_count : RiskCount;
  log : list Event
}.

(** [analyze_with_ollama(content) if model_type == "OLLAMA" else
    analyze_with_gemini(content)] *)
Definition analyze (model_type : ModelType) (f : FileObs) : M (option str) :=
  match model_type with
  | OLLAMA => analyze_with_ollama (f_ollama f)
  | Gemini => analyze_with_gemini (f_gemini f)
  end.

(** ["Analysis failed" in analysis or "No vulnerabilities detected" in
    analysis] *)
Definition skipped (analysis : str) : bool :=
  contains (L "Analysis failed") analysis
  || contains (L "No vulnerabilities detected") analysis.

(** [time.sleep(1 if model_type == "OLLAMA" else 3)] *)
Definition pacing (model_type : ModelType) : Z :=
  match model_type with
  | OLLAMA => 1
  | Gemini => 3
  end.

Definition with_log (st : ScanState) (log' : list Event) : ScanState :=
  {| db := db st; collection := collection st; results := results st;
     risk_count := risk_count st; log := log' |}.

(** The body of [for idx, file_path in enumerate(files)], with its
    [try ... except Exception ... continue]. *)
Definition scan_file (model_type : ModelType) (st : ScanState) (f : FileObs)
  : ScanState :=
  match f_content f with
  | None => st
  | Some [] => st
  | Some content =>
      match analyze model_type f (log st) with
      | (Ok (Some analysis), log1) =>
          if skipped analysis then with_log st log1
          else
            let detected_risks := detect_owasp_risks analysis content in
            let '(risk_count1, key_error) :=
              count_risks detected_risks (risk_count st) in
            if key_error then
              {| db := db st; collection := collection st;
                 results := results st; risk_count := risk_count1;
                 log := log1 |}
            else
              let db1 := store_in_database (f_path f) content detected_risks
                                           analysis (db st) in
              let '(collection1, raised) :=
                store_in_vector_db (f_path f) content analysis
                                   detect_owasp_risks (f_add_ok f)
                                   (collection st) in
              if raised then
                {| db := db1; collection := collection1;
                   results := results st; risk_count := risk_count1;
                   log := log1 |}
              else
                {| db := db1; collection := collection1;
                   results := results st ++
                     [{| r_file_path := f_path f;
                         r_risks := detected_risks;
                         r_analysis := analysis |}];
                   risk_count := risk_count1;
                   log := log1 ++ [Sleep (pacing model_type)] |}
      | (_, log1) => with_log st log1
      end
  end.

(** [clean_previous_data] *)
Definition clean_previous_data (directory : str) (t : Table) : Table :=
  delete_like (directory ++ [percent]) t.

(** [scan_directory]. [files] is the listing [os.walk] gives for the
    directory, with what the environment holds for each file. *)
Definition scan_directory (directory : str) (model_type : ModelType)
           (files : list FileObs) (db0 : Table) (collection0 : Collection)
           (log0 : list Event) : ScanState :=
  let start :=
    {| db := clean_previous_data directory db0; collection := collection0;
       results := []; risk_count := ∅; log := log0 |} in
  match files with
  | [] => start
  | _ => foldl (scan_file model_type) start files
  end.

(** *** Vocabulary used to state the behaviour of a scan *)

(** The analysis text the adapter returns for a file, when it returns a
    string. *)
Definition analysis_of (model_type : ModelType) (f : FileObs) : option str :=
  match (analyze model_type f []).1 with
  | Ok (Some analysis) => Some analysis
  | _ => None
  end.

(** The content and the analysis of a file that is read and analysed
    successfully: a non-empty content, and an analysis that neither failed
    nor reports that nothing was found. *)
Definition analysed (model_type : ModelType) (f : FileObs)
  : option (str * str) :=
  match f_content f, analysis_of model_type f with
  | Some (c :: content), Some analysis =>
      if skipped analysis then None else Some (c :: content, analysis)
  | _, _ => None
  end.

Definition persisted (model_type : ModelType) (f : FileObs) : bool :=
  match analysed model_type f with Some _ => true | None => false end.

(** Every inner dictionary of a risk count has the three severity keys. *)
Definition counts_ok (rc : RiskCount) : Prop :=
  forall name counts, rc !! name = Some counts ->
    is_Some (counts !! L "Low") /\ is_Some (counts !! L "Medium") /\
    is_Some (counts !! L "High").

Definition valid_severity (sev : str) : Prop :=
  sev = L "Low" \/ sev = L "Medium" \/ sev = L "High".

(** The row was written by [store_in_database] with the findings the
    extractor returns for the analysis and the content of the row. *)
Definition row_from_extractor (r : ScanRecord) : Prop :=
  risks r = str_risks (detect_owasp_risks (analysis r) (content r)).

(** The metadata of a document of the collection carry the path and the
    risks text of a row of the table. *)
Definition row_matches (d : VectorDoc) (r : ScanRecord) : Prop :=
  v_metadata d !! L "file_path" = Some (VStr (file_path r)) /\
  v_metadata d !! L "risks" = Some (VStr (risks r)).

(** The table holds exactly one record for every listed file (the
    property as the specification words it). *)
Definition one_record_per_file (files : list FileObs) (t : Table) : Prop :=
  forall f, f ∈ files ->
    length (filter (fun r => file_path r = f_path f) (rows t)) = 1%nat.

(** *** Sample inputs *)

Definition file_with (path content : str) (analysis : str) : FileObs :=
  {| f_path := path; f_content := Some content; f_ollama := Ok analysis;
     f_gemini := fun _ => Ok {| has_candidate := true; text := Ok analysis |};
     f_add_ok := true |}.

Definition secret_file : FileObs :=
  file_with (L "proj/ci.yml") (L "password hunter2") (render [secret_block]).

Definition clean_file : FileObs :=
  file_with (L "proj/ok.yml") (L "stage build")
            (L "No vulnerabilities detected in the provided configuration.").


Definition other_row : ScanRecord :=
  {| id := 1; file_path := L "other/a.yml"; content := L "docker image";
     risks := str_risks [finding_of registry_block];
     analysis := render [registry_block] |}.

End Orchestrator.

(** ** Further vocabulary for the chunker *)

Module Chunks.

(** The text put back together from its chunks: the first chunk, then every
    later chunk without the [overlap] characters it repeats. *)
Definition rebuild (overlap : Z) (chunks : list str) : str :=
  match chunks with
  | [] => []
  | first :: rest => first ++ concat (drop (Z.to_nat overlap) <$> rest)
  end.

End Chunks.

(** ** Further vocabulary for the relational store *)

Module Sql.
Import Str Database.

(** A pattern text without the two wildcard characters of [LIKE]. *)
Definition plain (pattern : str) : Prop :=
  Forall (fun c => c <> percent /\ c <> underscore) pattern.

(** [directory] prefixes [path] when letter case is ignored. *)
Definition prefix_ci (directory path : str) : Prop :=
  lower directory `prefix_of` lower path.

#[global] Instance prefix_ci_dec directory path :
  Decision (prefix_ci directory path).
Proof. unfold prefix_ci. apply _. Defined.

End Sql.

(** ** database.py: reading the table back, and cleaning *)

Module Loading.
Import Str Analysis PyRepr Database.

(** An entry of the list [load_scan_results_from_db] returns: the path, the
    value of [eval(row['risks'])] and the analysis. *)
Record Loaded := {
  l_file_path : str;
  l_risks : list Dict;
  l_analysis : str
}.

(** [for _, row in df.iterrows()]; an exception of [eval] ends the whole
    loading, which is [None]. *)
Fixpoint load_rows (rs : list ScanRecord) : option (list Loaded) :=
  match rs with
  | [] => Some []
  | row :: rest =>
      detected ← eval_list (risks row);
      entries ← load_rows rest;
      Some ({| l_file_path := file_path row; l_risks := detected;
               l_analysis := analysis row |} :: entries)
  end.

Definition load_scan_results_from_db (t : Table) : option (list Loaded) :=
  load_rows (rows t).

(** [clean_database]: every row is deleted; the documents of the collection
    are deleted unless listing them raises, in which case the error is only
    reported. *)
Definition clean_database (list_ok : bool) (t : Table)
           (collection : Collection) : Table * Collection :=
  (delete_all t, if list_ok then [] else collection).

(** [reset_databases]: the table is dropped and created again and the
    collection is replaced by a new one, when the reset is forced. *)
Definition reset_databases (force_reset : bool) (t : Table)
           (collection : Collection) : Table * Collection :=
  if force_reset then (empty_table, []) else (t, collection).

(** A finding whose name holds both quotes, a backslash and a tab. *)
Definition awkward_finding : Finding :=
  {| risk_name := L "it's a " ++ [dquote] ++ L "risk\" ++ ["009"%char];
     severity := L "High" |}.

End Loading.

(** ** Further vocabulary for a scan *)

Module ScanFacts.
Import Str Analysis Eff Completion PyRepr Database Orchestrator Loading.

(** The findings of the files of a listing that are read and analysed
    successfully, in the order of the listing. *)
Definition findings_of (model_type : ModelType) (f : FileObs)
  : list Finding :=
  match analysed model_type f with
  | Some (content, analysis) => detect_owasp_risks analysis content
  | None => []
  end.

Definition scan_findings (model_type : ModelType) (files : list FileObs)
  : list Finding :=
  concat (findings_of model_type <$> files).

(** One for the same name and severity, zero otherwise. *)
Definition hit_value (name sev name' sev' : str) : Z :=
  if decide (name = name' /\ sev = sev') then 1 else 0.

(** How many findings have the name [name] and the severity [sev]. *)
Definition occurrences (name sev : str) (fs : list Finding) : Z :=
  Z.of_nat (length (filter (fun f => risk_name f = name /\ severity f = sev)
                           fs)).

(** An entry of [results] as [load_scan_results_from_db] gives it back. *)
Definition loaded_of (r : Result) : Loaded :=
  {| l_file_path := r_file_path r;
     l_risks := finding_dict <$> r_risks r;
     l_analysis := r_analysis r |}.

End ScanFacts.

(** ** ui.py: the results browser and the question box *)

Module Ui.
Import Str Eff Completion Database.

(** The value [query_vectors] returns, as [generate_rag_response] receives
    it: a list holding the list of documents, or a list holding the
    sentence. *)
Definition to_context (r : Retrieved) : Context :=
  match r with
  | Docs docs => AList [ItemList docs]
  | NoRelated => AList [ItemStr (L "No related files found.")]
  end.

(** [show_rag_qa] for a question: nothing is asked for the empty question;
    otherwise the context is retrieved and handed to the completion
    adapter. The debug display is not represented. *)
Definition show_rag_qa (question : str) (query : Exc QueryResult)
           (model_type : ModelType) (ollama : Exc str) (backend : Backend)
  : M (option str) :=
  match question with
  | [] => ret None
  | _ =>
      let context := to_context (query_vectors question query) in
      generate_rag_response context model_type ollama backend
  end.

(** The parameter [f"%{search_query}%"]. *)
Definition search_pattern (search_query : str) : str :=
  percent :: search_query ++ [percent].

(** [WHERE file_path LIKE ? OR risks LIKE ?] of [show_analysis_ui]. *)
Definition where_clause (search_query : str) (r : ScanRecord) : bool :=
  like (search_pattern search_query) (file_path r)
  || like (search_pattern search_query) (risks r).

(** The rows the query of [show_analysis_ui] selects, before it orders them
    by timestamp and keeps twenty. *)
Definition selected_rows (search_query : str) (t : Table) : list ScanRecord :=
  List.filter (where_clause search_query) (rows t).

End Ui.

(** ** Reading a file ([utils.py])

    [word_tokenize] belongs to NLTK and is a parameter: any function from a
    text to its tokens, taken not to raise. What [open] and [read] do with
    one encoding is an observation: the text decoded, a
    [UnicodeDecodeError], or another exception. *)

Module Loader.
Import Str.











End Loader.

(** ** ui.py: the data of the dashboard *)

Module Dashboard.
Import Str Database.

(** The list [data] of [show_risk_dashboard]: one entry for each risk name
    and severity whose count is positive. The entries come in the order of
    the dictionaries in the source; here they come in the order of the
    maps, which the statements below do not depend on. *)
Definition dashboard_data (risk_count : RiskCount) : list (str * str * Z) :=
  flat_map
    (fun '(risk_name, severities) =>
       flat_map
         (fun '(severity, count) =>
            if 0 <? count then [(risk_name, severity, count)] else [])
         (map_to_list severities))
    (map_to_list risk_count).

(** No count is negative, and every risk name has a positive count. *)
Definition counted (risk_count : RiskCount) : Prop :=
  forall name counts, risk_count !! name = Some counts ->
    (forall sev n, counts !! sev = Some n -> 0 <= n) /\
    exists sev n, counts !! sev = Some n /\ 0 < n.

End Dashboard.

(** ** main.py: the two places where the stores are emptied *)

Module Main.
Import Str Eff Completion Database Orchestrator Loading.

(** The branch [Yes, clear previous results]: [clean_database()], then the
    scan, whose results and counts become those of the session. *)
Definition clear_and_scan (list_ok : bool) (scan_dir : str)
           (model_type : ModelType) (files : list FileObs) (t0 : Table)
           (collection0 : Collection) (log0 : list Event) : ScanState :=
  let '(t, collection) := clean_database list_ok t0 collection0 in
  scan_directory scan_dir model_type files t collection log0.

(** The first run of a session: [reset_databases(force_reset=True)], then
    the two loaders. *)
Definition first_run (t0 : Table) (collection0 : Collection)
  : option (list Loaded) * option RiskCount :=
  let '(t, _) := reset_databases true t0 collection0 in
  (load_scan_results_from_db t, load_risk_count_from_db t).

End Main.

(* ===================================================================== *)
(** * Properties *)
(* ===================================================================== *)

(** ** The text chunker *)

Example chunk_text_abcdef :
  Utils.chunk_text 10 (L "abcdef") 4 1 = Some [L "abcd"; L "def"].
Proof. reflexivity. Qed.

Section Chunker.
Import Utils.

Lemma adjust_in_range (len i : Z) : 0 <= i <= len -> Py.adjust len i = i.
Proof.
  intros H. unfold Py.adjust.
  destruct (Z.ltb_spec i 0); lia.
Qed.

Lemma slice_in_range {A} (l : list A) (a b : Z) :
  0 <= a <= b -> b <= Z.of_nat (length l) ->
  Py.slice l a b = take (Z.to_nat (b - a)) (drop (Z.to_nat a) l) /\
  Z.of_nat (length (Py.slice l a b)) = b - a.
Proof.
  intros Hab Hb. unfold Py.slice.
  rewrite !adjust_in_range by lia. split; [done|].
  rewrite length_take, length_drop. lia.
Qed.

Lemma chunk_loop_windows fuel text c o start (ws : list (Z * Z)) :
  chunk_loop fuel text c o start (cut text <$> ws) =
  fmap (M := option) (fmap (M := list) (cut text))
       (window_loop fuel text c o start ws).
Proof.
  revert start ws. induction fuel as [|fuel IH]; intros start ws; simpl.
  - by destruct (start <? _).
  - destruct (start <? _); [|done].
    rewrite <- IH. by rewrite fmap_app.
Qed.

Lemma start_below_count (len s : Z) (k : nat) :
  0 < s -> 0 <= len ->
  (Z.of_nat k * s < len <-> (k < window_count len s)%nat).
Proof.
  intros Hs Hlen. unfold window_count.
  assert (Hq : 0 <= (len + s - 1) / s) by (apply Z.div_pos; lia).
  split; intros H.
  - assert (Z.of_nat k + 1 <= (len + s - 1) / s); [|lia].
    apply Z.div_le_lower_bound; lia.
  - assert (Z.of_nat k < (len + s - 1) / s) by lia.
    assert (s * ((len + s - 1) / s) <= len + s - 1)
      by (apply Z.mul_div_le; lia).
    nia.
Qed.

Lemma window_loop_arith fuel text c o (k0 : nat) ws :
  0 < c - o ->
  let len := Z.of_nat (length text) in
  let n := window_count len (c - o) in
  (n - k0 <= fuel)%nat ->
  window_loop fuel text c o (Z.of_nat k0 * (c - o)) ws =
  Some (ws ++ arith_windows len c o k0 (n - k0)).
Proof.
  intros Hs len n. revert k0 ws.
  induction fuel as [|fuel IH]; intros k0 ws Hfuel; simpl.
  - destruct (Z.ltb_spec (Z.of_nat k0 * (c - o)) (Z.of_nat (length text)))
      as [Hlt|Hge].
    + apply start_below_count in Hlt; [|lia..]. fold len n in Hlt. lia.
    + replace (n - k0)%nat with 0%nat; [by rewrite app_nil_r|].
      destruct (decide (k0 < n)%nat) as [Hk|Hk]; [|lia].
      apply start_below_count in Hk; [|lia..]. lia.
  - destruct (Z.ltb_spec (Z.of_nat k0 * (c - o)) (Z.of_nat (length text)))
      as [Hlt|Hge].
    + apply start_below_count in Hlt; [|lia..]. fold len n in Hlt.
      replace (Z.of_nat k0 * (c - o) + (c - o))
        with (Z.of_nat (S k0) * (c - o)) by lia.
      rewrite IH by lia.
      replace (n - k0)%nat with (S (n - S k0)) by lia.
      unfold arith_windows. simpl. by rewrite <- app_assoc.
    + replace (n - k0)%nat with 0%nat; [by rewrite app_nil_r|].
      destruct (decide (k0 < n)%nat) as [Hk|Hk]; [|lia].
      apply start_below_count in Hk; [|lia..]. lia.
Qed.

Lemma arith_windows_lookup len c o (n k : nat) w :
  arith_windows len c o 0 n !! k = Some w <->
  (k < n)%nat /\
  w = (Z.of_nat k * (c - o), Z.min (Z.of_nat k * (c - o) + c) len).
Proof.
  unfold arith_windows. rewrite list_lookup_fmap.
  destruct (decide (k < n)%nat) as [Hk|Hk].
  - rewrite lookup_seq_lt by done. simpl. split.
    + intros [= <-]. done.
    + intros [_ ->]. done.
  - rewrite lookup_seq_ge by lia. simpl. split; [done|]. intros [? _]. lia.
Qed.

(** With a non-positive step the loop variable never reaches the length
    of a non-empty text. *)
Lemma chunk_loop_stuck fuel text c o start chunks :
  c - o <= 0 -> start <= 0 -> text <> [] ->
  chunk_loop fuel text c o start chunks = None.
Proof.
  intros Hs Hstart Htext. revert start chunks Hstart.
  assert (0 < Z.of_nat (length text)) as Hlen
    by (destruct text; simpl in *; [done|lia]).
  induction fuel as [|fuel IH]; intros start chunks Hstart; simpl.
  - destruct (Z.ltb_spec start (Z.of_nat (length text))); [done|lia].
  - destruct (Z.ltb_spec start (Z.of_nat (length text))); [|lia].
    apply IH. lia.
Qed.

Lemma chunk_text_enough_fuel fuel text c o :
  0 < c - o ->
  let len := Z.of_nat (length text) in
  let n := window_count len (c - o) in
  (n <= fuel)%nat ->
  chunk_windows fuel text c o = Some (arith_windows len c o 0 n) /\
  chunk_text fuel text c o = Some (cut text <$> arith_windows len c o 0 n).
Proof.
  intros Hs len n Hfuel.
  assert (chunk_windows fuel text c o = Some (arith_windows len c o 0 n))
    as Hw.
  { unfold chunk_windows.
    pose proof (window_loop_arith fuel text c o 0 [] Hs) as H.
    simpl in H. rewrite Nat.sub_0_r in H.
    replace (0 * (c - o)) with 0 in H by lia. apply H.
    fold len n. lia. }
  split; [done|]. unfold chunk_text.
  change (@nil str) with (cut text <$> []).
  rewrite chunk_loop_windows. fold (chunk_windows fuel text c o).
  by rewrite Hw.
Qed.

(** C3 (as amended). [chunk_text] has no validation of its arguments: it
    returns, given enough iterations, exactly when the text is empty or
    [overlap < chunk_size]; for a non-empty text with
    [overlap >= chunk_size] no number of iterations lets the loop finish. *)
Theorem chunk_text_terminates_iff (text : str) (c o : Z) :
  (exists fuel chunks, chunk_text fuel text c o = Some chunks) <->
  (text = [] \/ o < c).
Proof.
  split.
  - intros (fuel & chunks & H).
    destruct text as [|a text]; [by left|]. right.
    destruct (decide (o < c)) as [|Hge]; [done|].
    unfold chunk_text in H. rewrite chunk_loop_stuck in H; [done|lia|lia|done].
  - intros [->|Hlt].
    + exists 0%nat, []. reflexivity.
    + eexists _, _. apply chunk_text_enough_fuel; [lia|reflexivity].
Qed.

(** C3 (as the specification states it) fails: on the one-character text
    with [chunk_size = overlap = 1] nothing rejects the arguments and the
    loop never returns. *)
Lemma chunk_text_degenerate_step_loops :
  ~ exists fuel chunks, chunk_text fuel (L "a") 1 1 = Some chunks.
Proof.
  intros (fuel & chunks & H). unfold chunk_text in H.
  rewrite chunk_loop_stuck in H; [done|lia|lia|done].
Qed.

(** C4 (as amended). For [0 <= overlap < chunk_size] the loop returns the
    windows starting at [0, c-o, 2(c-o), ...] below the length of the
    text; each is a non-empty slice of at most [chunk_size] characters;
    together they cover every position; consecutive windows leave no gap,
    and they share exactly [overlap] positions whenever the earlier one has
    the full length [chunk_size] (otherwise they share what is left of the
    text); only windows that reach the end of the text are shorter. *)
Theorem chunk_text_windows (text : str) (c o : Z) :
  0 <= o < c ->
  let len := Z.of_nat (length text) in
  let n := window_count len (c - o) in
  let ws := arith_windows len c o 0 n in
  (forall fuel, (n <= fuel)%nat ->
     chunk_windows fuel text c o = Some ws /\
     chunk_text fuel text c o = Some (cut text <$> ws)) /\
  ws.*1 = (fun k : nat => Z.of_nat k * (c - o)) <$> seq 0 n /\
  (forall k : nat, Z.of_nat k * (c - o) < len <-> (k < n)%nat) /\
  (forall w, w ∈ ws ->
     0 <= w.1 < w.2 /\ w.2 <= len /\ w.2 - w.1 <= c /\
     (w.2 - w.1 = c \/ w.2 = len) /\
     cut text w = take (Z.to_nat (w.2 - w.1)) (drop (Z.to_nat w.1) text) /\
     Z.of_nat (length (cut text w)) = w.2 - w.1) /\
  (forall p, 0 <= p < len -> exists w, w ∈ ws /\ w.1 <= p < w.2) /\
  (forall (k : nat) w1 w2, ws !! k = Some w1 -> ws !! S k = Some w2 ->
     w2.1 = w1.1 + (c - o) /\ w2.1 <= w1.2 /\ w1.2 <= w2.2 /\
     w1.2 - w2.1 = Z.min o (len - w2.1) /\
     (w1.2 - w1.1 = c -> w1.2 - w2.1 = o)).
Proof.
  intros Hco len n ws.
  assert (0 <= len) as Hlen by (unfold len; lia).
  assert (Hcount : forall k : nat,
             Z.of_nat k * (c - o) < len <-> (k < n)%nat)
    by (intros k; apply start_below_count; lia).
  split; [|split; [|split; [|split; [|split]]]].
  - intros fuel Hfuel. apply chunk_text_enough_fuel; [lia|done].
  - unfold ws, arith_windows. rewrite <- list_fmap_compose.
    by apply list_fmap_ext.
  - done.
  - intros w Hw. apply list_elem_of_lookup in Hw as [k Hk].
    apply arith_windows_lookup in Hk as [Hk ->]. simpl.
    apply Hcount in Hk.
    assert (0 <= Z.of_nat k * (c - o)) by nia.
    split; [lia|]. split; [lia|]. split; [lia|]. split; [lia|].
    apply slice_in_range; lia.
  - intros p Hp.
    set (k := Z.to_nat (p / (c - o))).
    assert (0 <= p / (c - o)) by (apply Z.div_pos; lia).
    assert (Hk : Z.of_nat k = p / (c - o)) by (unfold k; lia).
    pose proof (Z.mul_div_le p (c - o) ltac:(lia)) as Hle.
    pose proof (Z.mul_succ_div_gt p (c - o) ltac:(lia)) as Hgt.
    exists (Z.of_nat k * (c - o), Z.min (Z.of_nat k * (c - o) + c) len).
    split.
    + apply list_elem_of_lookup. exists k. apply arith_windows_lookup.
      split; [|done]. apply Hcount. nia.
    + simpl. nia.
  - intros k w1 w2 H1 H2.
    apply arith_windows_lookup in H1 as [Hk1 ->].
    apply arith_windows_lookup in H2 as [Hk2 ->]. simpl.
    apply Hcount in Hk2.
    assert (0 <= Z.of_nat k * (c - o)) by nia.
    lia.
Qed.

Lemma chunk_text_windows_witness :
  0 <= 1 < 4 /\
  chunk_text 2 (L "abcdef") 4 1 = Some [L "abcd"; L "def"].
Proof.
  split; [lia|].
  destruct (chunk_text_windows (L "abcdef") 4 1 ltac:(lia)) as [H _].
  destruct (H 2%nat ltac:(vm_compute; lia)) as [_ Hc]. exact Hc.
Defined.

(** C4 (as the specification states it) fails: with [chunk_size = 4] and
    [overlap = 3] on a six-character text, the fourth and fifth windows
    share two positions although neither is the final window. *)
Lemma chunk_text_overlap_counterexample :
  chunk_text 6 (L "abcdef") 4 3 =
    Some [L "abcd"; L "bcde"; L "cdef"; L "def"; L "ef"; L "f"] /\
  chunk_windows 6 (L "abcdef") 4 3 =
    Some [(0, 4); (1, 5); (2, 6); (3, 6); (4, 6); (5, 6)] /\
  ~ overlap_except_final 3 [(0, 4); (1, 5); (2, 6); (3, 6); (4, 6); (5, 6)].
Proof.
  split; [reflexivity|]. split; [reflexivity|].
  intros H. specialize (H 3%nat (3, 6) (4, 6) eq_refl eq_refl).
  simpl in H. lia.
Qed.

(** When the overlap is at most half of the chunk size, as with the defaults
    1000 and 200, only the final window can be reached by a truncated
    neighbour, and the specification's wording holds as it stands. *)
Lemma chunk_text_overlap_small (text : str) (c o : Z) :
  0 <= o -> 2 * o <= c -> o < c ->
  let len := Z.of_nat (length text) in
  overlap_except_final o
    (arith_windows len c o 0 (window_count len (c - o))).
Proof.
  intros Ho H2 Hoc len k w1 w2 H1 H2' Hk.
  apply arith_windows_lookup in H1 as [Hk1 ->].
  apply arith_windows_lookup in H2' as [Hk2 ->]. simpl.
  unfold arith_windows in Hk. rewrite length_fmap, length_seq in Hk.
  apply (start_below_count len (c - o)) in Hk; [|lia|unfold len; lia].
  lia.
Qed.

End Chunker.

(** ** The risk extractor *)

Section Strings.
Import Str Re.

Lemma starts_with_spec (pat s : str) :
  starts_with pat s = true <-> exists post, s = pat ++ post.
Proof.
  revert s. induction pat as [|p pat IH]; intros s; simpl.
  - split; [intros _; by exists s|done].
  - destruct s as [|c s]; [split; [done|intros [post H]; done]|].
    rewrite andb_true_iff, IH. split.
    + intros [Hpc [post ->]]. apply Ascii.eqb_eq in Hpc as ->. by exists post.
    + intros [post [= -> ->]]. split; [apply Ascii.eqb_refl|by exists post].
Qed.

Lemma starts_with_app (pat post : str) : starts_with pat (pat ++ post) = true.
Proof. apply starts_with_spec. by exists post. Qed.

Lemma any_suffix_spec (f : str -> bool) (s : str) :
  any_suffix f s = true <-> exists pre post, s = pre ++ post /\ f post = true.
Proof.
  induction s as [|c s IH]; simpl.
  - rewrite orb_false_r. split.
    + intros H. by exists [], [].
    + intros (pre & post & Heq & H). symmetry in Heq.
      apply app_eq_nil in Heq as [-> ->]. done.
  - rewrite orb_true_iff, IH. split.
    + intros [H|(pre & post & -> & H)].
      * by exists [], (c :: s).
      * by exists (c :: pre), post.
    + intros (pre & post & Heq & H). destruct pre as [|c' pre].
      * simpl in Heq. subst post. by left.
      * injection Heq as -> ->. right. by exists pre, post.
Qed.

Lemma any_suffix_or (f g : str -> bool) (s : str) :
  any_suffix (fun t => f t || g t) s = any_suffix f s || any_suffix g s.
Proof.
  induction s as [|c s IH]; simpl.
  - by rewrite !orb_false_r.
  - rewrite IH. destruct (f (c :: s)), (g (c :: s)),
      (any_suffix f s), (any_suffix g s); done.
Qed.

Lemma any_suffix_ext (f g : str -> bool) (s : str) :
  (forall t, f t = g t) -> any_suffix f s = any_suffix g s.
Proof.
  intros H. induction s as [|c s IH]; simpl; by rewrite ?IH, H.
Qed.

Lemma contains_any_suffix (pat s : str) :
  contains pat s = any_suffix (starts_with pat) s.
Proof. induction s as [|c s IH]; simpl; by rewrite ?IH. Qed.

(** [pat in s] holds exactly when [s] has [pat] as a contiguous part. *)
Lemma contains_spec (pat s : str) :
  contains pat s = true <-> exists pre post, s = pre ++ pat ++ post.
Proof.
  rewrite contains_any_suffix, any_suffix_spec. split.
  - intros (pre & t & -> & H). apply starts_with_spec in H as [post ->].
    by exists pre, post.
  - intros (pre & post & ->). exists pre, (pat ++ post).
    split; [done|apply starts_with_app].
Qed.

Lemma contains_lower_any_suffix (pat s : str) :
  contains pat (lower s) = any_suffix (fun t => starts_with pat (lower t)) s.
Proof. induction s as [|c s IH]; simpl; by rewrite ?IH. Qed.

(** A search for a pattern that does not look behind succeeds exactly when
    the pattern matches at some suffix. *)
Lemma found_search_from (f : str -> bool) (prev : option ascii) (s : str) :
  found (search_from (fun _ t => hit (f t)) prev s) = any_suffix f s.
Proof.
  revert prev. induction s as [|c s IH]; intros prev; simpl.
  - destruct (f []); done.
  - destruct (f (c :: s)); simpl; [done|]. apply IH.
Qed.



End Strings.

Section Extractor.
Import Str Re Analysis.

Lemma lower_char_h_word (c : ascii) :
  lower_char c = "h"%char -> is_word c = true.
Proof.
  destruct c as [[] [] [] [] [] [] [] []]; vm_compute; congruence.
Qed.

Lemma sh_boundary (s : str) :
  lit_ci (L "sh") s && word_boundary (s !! 1%nat) (drop 2 s) =
  sh_at_word_end s.
Proof.
  unfold lit_ci, sh_at_word_end.
  destruct s as [|c1 [|c2 rest]];
    [done | simpl; by rewrite !andb_false_r |].
  destruct (starts_with (L "sh") (lower (c1 :: c2 :: rest))) eqn:Hsh;
    [|done].
  change (starts_with (L "sh") (lower (c1 :: c2 :: rest)))
    with (Ascii.eqb "s" (lower_char c1)
          && (Ascii.eqb "h" (lower_char c2) && true)) in Hsh.
  apply andb_true_iff in Hsh as [_ Hsh].
  apply andb_true_iff in Hsh as [Hh _]. apply Ascii.eqb_eq in Hh.
  symmetry in Hh. apply lower_char_h_word in Hh.
  simpl. unfold word_boundary. simpl. rewrite Hh.
  by destruct rest.
Qed.

Lemma found_registry (content : str) :
  found (search registry_at content) = needs_registry content.
Proof.
  unfold search, registry_at, needs_registry.
  rewrite (found_search_from
             (fun s => lit_ci (L "registry") s || lit_ci (L "image") s)).
  by rewrite any_suffix_or, !contains_lower_any_suffix.
Qed.

Lemma found_shell (content : str) :
  found (search shell_at content) = needs_shell content.
Proof.
  unfold search, shell_at, needs_shell.
  rewrite (found_search_from
             (fun s => lit_ci (L "script") s
                       || (lit_ci (L "sh") s
                           && word_boundary (s !! 1%nat) (drop 2 s))
                       || lit_ci (L "bash") s || lit_ci (L "command") s)).
  rewrite !any_suffix_or, !contains_lower_any_suffix.
  by rewrite (any_suffix_ext
                (fun s => lit_ci (L "sh") s
                          && word_boundary (s !! 1%nat) (drop 2 s))
                sh_at_word_end) by apply sh_boundary.
Qed.

Lemma found_network (content : str) :
  found (search network_at content) = needs_network content.
Proof.
  unfold search, network_at, needs_network.
  rewrite (found_search_from
             (fun s => lit_ci (L "network") s || lit_ci (L "host") s
                       || lit_ci (L "bridge") s || lit_ci (L "overlay") s)).
  by rewrite !any_suffix_or, !contains_lower_any_suffix.
Qed.

Lemma found_gitlab (content : str) :
  found (search gitlab_at content) = needs_gitlab content.
Proof.
  unfold search, gitlab_at, needs_gitlab.
  rewrite (found_search_from
             (fun s => lit_ci (L "gitlab") s || lit_ci (L "runner") s
                       || lit_ci (L "token") s)).
  by rewrite !any_suffix_or, !contains_lower_any_suffix.
Qed.

(** The chain of [if ...: continue] tests is the disjunction of the four
    keyword rules. *)
Lemma loop_body_candidate (content : str) (detected : list Finding)
      (block : str) :
  loop_body content detected block =
  match candidate block with
  | Some f =>
      if uncorroborated (risk_name f) content then detected
      else detected ++ [f]
  | None => detected
  end.
Proof.
  unfold loop_body, candidate.
  destruct (risk_name_match block) as [n|]; [|done].
  destruct (severity_match block) as [sv|]; [|done].
  destruct (reason_match block) as [r|]; [|done].
  rewrite found_registry, found_shell, found_network, found_gitlab.
  unfold uncorroborated, keyword_rules.
  cbn [existsb fst snd risk_name].
  destruct (contains (L "registry") (lower (strip n))),
    (needs_registry content),
    (contains (L "shell") (lower (strip n))), (needs_shell content),
    (contains (L "network") (lower (strip n))), (needs_network content),
    (contains (L "gitlab") (lower (strip n))), (needs_gitlab content);
    reflexivity.
Qed.

(** What one block contributes to the result. *)
Lemma loop_body_app (content : str) (detected : list Finding) (block : str) :
  loop_body content detected block =
  detected ++ loop_body content [] block.
Proof.
  rewrite !loop_body_candidate.
  destruct (candidate block) as [f|]; [|by rewrite app_nil_r].
  destruct (uncorroborated _ _); [by rewrite app_nil_r|done].
Qed.

Lemma foldl_loop_body (content : str) (detected : list Finding)
      (blocks : list str) :
  foldl (loop_body content) detected blocks =
  detected ++ concat (loop_body content [] <$> blocks).
Proof.
  revert detected. induction blocks as [|b blocks IH]; intros detected; simpl.
  - by rewrite app_nil_r.
  - rewrite IH, (loop_body_app content detected b). by rewrite <- app_assoc.
Qed.

Lemma severity_at_values p s v :
  severity_at p s = Some v -> v = L "Low" \/ v = L "Medium" \/ v = L "High".
Proof.
  unfold severity_at. destruct (starts_with _ s); [|done].
  destruct (starts_with (L "Low") _); [intros [= <-]; auto|].
  destruct (starts_with (L "Medium") _); [intros [= <-]; auto|].
  destruct (starts_with (L "High") _); [intros [= <-]; auto|done].
Qed.

Lemma severity_match_values block v :
  severity_match block = Some v ->
  v = L "Low" \/ v = L "Medium" \/ v = L "High".
Proof.
  unfold severity_match, search. generalize (@None ascii).
  induction block as [|c block IH]; intros p; cbn [search_from].
  - destruct (severity_at p []) eqn:H; [|done].
    intros [= <-]. by apply severity_at_values in H.
  - destruct (severity_at p (c :: block)) eqn:H.
    + intros [= <-]. by apply severity_at_values in H.
    + apply IH.
Qed.




(** *** Extraction from the rendered output format *)


















Lemma candidate_fields (block : str) (f : Finding) :
  candidate block = Some f <->
  exists name_group sev reason_group,
    risk_name_match block = Some name_group /\
    severity_match block = Some sev /\
    reason_match block = Some reason_group /\
    f = {| risk_name := strip name_group; severity := sev |}.
Proof.
  unfold candidate. split.
  - destruct (risk_name_match block) as [n|]; [|done].
    destruct (severity_match block) as [sv|]; [|done].
    destruct (reason_match block) as [r|]; [|done].
    intros [= <-]. by exists n, sv, r.
  - intros (n & sv & r & -> & -> & -> & ->). done.
Qed.

Lemma detect_concat (analysis content : str) :
  detect_owasp_risks analysis content =
  concat (loop_body content [] <$> drop 1 (split delimiter analysis)).
Proof. unfold detect_owasp_risks. by rewrite foldl_loop_body. Qed.




Example detect_shell_example :
  detect_owasp_risks
    (join [nl] [L "### Risk: Unrestricted Shell Execution";
                L "**Severity**: High";
                L "**Reason**: pipes remote script directly into shell";
                L "**Suggestion**: pin and verify script"])
    (L "curl http examplecom sh")
  = [{| risk_name := L "Unrestricted Shell Execution"; severity := L "High" |}].
Proof. reflexivity. Qed.

End Extractor.

(** ** The completion adapters *)

Section Adapters.
Import Str Eff Completion.

Lemma attempt_body_result nc qf f (backend : Backend) (k : nat)
      (log : list Event) :
  attempt_body nc qf f backend k log =
  match attempt_result nc backend k with
  | Ok t => (Ok (Some t), log ++ [Call k])
  | Exn e =>
      if quota_error e then
        if (k <? max_retries - 1)%nat
        then (Ok None, (log ++ [Call k]) ++ [Sleep 60])
        else (Ok (Some (qf ++ e)), log ++ [Call k])
      else (Ok (Some (f ++ e)), log ++ [Call k])
  end.
Proof.
  unfold attempt_body, attempt_result, try_except, call, bind, emit, lift,
    ret, quota_error.
  destruct (backend k) as [[hc [t|e]]|e]; simpl.
  - by destruct hc.
  - destruct hc; simpl; [|done].
    destruct (contains _ _); [|done]. by destruct (k <? _)%nat.
  - destruct (contains _ _); [|done]. by destruct (k <? _)%nat.
Qed.

Ltac retry_stops n s :=
  exists n, s; unfold ret, retry_trace, max_retries;
  cbn [Nat.sub seq flat_map app]; rewrite <- ?app_assoc;
  repeat match goal with H : _ = _ |- _ => rewrite H end;
  split; [lia|]; split; [done|]; split; [|done].

Lemma retry_loop_outcome nc qf f (backend : Backend) (log : list Event) :
  retry_outcome nc qf f backend log
    (for_attempts (attempt_body nc qf f backend) (seq 0 max_retries) log).
Proof.
  unfold retry_outcome. cbn [seq max_retries for_attempts]. unfold bind.
  rewrite attempt_body_result.
  destruct (attempt_result nc backend 0) as [t0|e0] eqn:H0.
  { retry_stops 1%nat t0. intros k Hk. lia. }
  destruct (quota_error e0) eqn:Q0; cycle 1.
  { retry_stops 1%nat (f ++ e0). intros k Hk. lia. }
  cbn [Nat.ltb Nat.leb max_retries Nat.sub]. rewrite attempt_body_result.
  assert (forall k, (k < 1)%nat ->
            exists e, attempt_result nc backend k = Exn e /\
                      quota_error e = true) as Hquota1.
  { intros k Hk. assert (k = 0%nat) as -> by lia. by exists e0. }
  destruct (attempt_result nc backend 1) as [t1|e1] eqn:H1.
  { clear H0 Q0. retry_stops 2%nat t1. done. }
  destruct (quota_error e1) eqn:Q1; cycle 1.
  { clear H0 Q0. retry_stops 2%nat (f ++ e1). done. }
  cbn [Nat.ltb Nat.leb max_retries Nat.sub]. rewrite attempt_body_result.
  assert (forall k, (k < 2)%nat ->
            exists e, attempt_result nc backend k = Exn e /\
                      quota_error e = true) as Hquota2.
  { intros k Hk. destruct k as [|[|k]]; [by exists e0|by exists e1|lia]. }
  clear H0 Q0 H1 Q1 Hquota1.
  destruct (attempt_result nc backend 2) as [t2|e2] eqn:H2.
  { retry_stops 3%nat t2. done. }
  destruct (quota_error e2) eqn:Q2.
  - retry_stops 3%nat (qf ++ e2). done.
  - retry_stops 3%nat (f ++ e2). done.
Qed.

Lemma contains_app_l (pat a b : str) :
  contains pat a = true -> contains pat (a ++ b) = true.
Proof.
  rewrite !contains_spec. intros (pre & post & ->).
  exists pre, (post ++ b). by rewrite <- !app_assoc.
Qed.

(** C7. Against the hosted backend both [analyze_with_gemini] and
    [generate_rag_response] return a string whatever the backend does; they
    make between one and three calls, with a pause of 60 seconds before each
    repeated call; a call is repeated only after a failure whose message
    mentions a quota; after the third such failure the quota failure string
    is returned; any other failure is returned at once as a failure string.
    The strings returned by the analysis on failure contain the words
    "Analysis failed", which is what the scan tests to pass to the next
    file. *)
Theorem gemini_retry_policy (backend : Backend) (log : list Event) :
  retry_outcome (L "No vulnerabilities detected in the provided code.")
                (L "Analysis failed due to quota limit: ")
                (L "Analysis failed: ")
                backend log (analyze_with_gemini backend log) /\
  (forall e,
      contains (L "Analysis failed")
               (L "Analysis failed due to quota limit: " ++ e) = true /\
      contains (L "Analysis failed") (L "Analysis failed: " ++ e) = true) /\
  (forall context ollama,
      no_context context = false ->
      retry_outcome
        (L "No response generated by Gemini. Please try again later.")
        (L "Response generation failed due to quota limit: ")
        (L "Response generation failed: ")
        backend log
        (generate_rag_response context Gemini ollama backend log)).
Proof.
  split; [apply retry_loop_outcome|]. split.
  - intros e. split; by apply contains_app_l.
  - intros context ollama Hctx. unfold generate_rag_response. rewrite Hctx.
    pose proof (retry_loop_outcome
      (L "No response generated by Gemini. Please try again later.")
      (L "Response generation failed due to quota limit: ")
      (L "Response generation failed: ") backend log) as H.
    unfold try_except.
    destruct H as (n & s & Hn & Hres & Hq & Hlast).
    rewrite Hres. exists n, s. done.
Qed.

(** Three quota failures in a row: three calls, two pauses, and the quota
    failure string as the answer. *)
Lemma gemini_retry_policy_witness :
  no_context (AList [ItemList [L "stage: deploy"]]) = false /\
  analyze_with_gemini always_quota []
    = (Ok (Some (L "Analysis failed due to quota limit: 429 Quota exceeded")),
       [Call 0; Sleep 60; Call 1; Sleep 60; Call 2]) /\
  retry_outcome
    (L "No response generated by Gemini. Please try again later.")
    (L "Response generation failed due to quota limit: ")
    (L "Response generation failed: ")
    always_quota []
    (generate_rag_response (AList [ItemList [L "stage: deploy"]]) Gemini
                           (Exn []) always_quota []).
Proof.
  split; [reflexivity|]. split; [reflexivity|].
  destruct (gemini_retry_policy always_quota []) as (_ & _ & H).
  apply H. reflexivity.
Defined.

Example analyze_other_failure :
  analyze_with_gemini broken []
  = (Ok (Some (L "Analysis failed: connection reset")), [Call 0]).
Proof. reflexivity. Qed.

End Adapters.

(** ** Reading back the text of a list of findings *)

Section Literals.
Import Str PyRepr.

Lemma parse_decode_unit (q c : ascii) (unit tail : str) :
  decode_unit q unit = Some c ->
  parse_str_body q (unit ++ tail) =
  match parse_str_body q tail with
  | Some (body, after) => Some (c :: body, after)
  | None => None
  end.
Proof.
  destruct unit as [|b [|e [|h1 [|h2 [|]]]]]; try done;
    cbn [decode_unit app parse_str_body].
  - destruct (Ascii.eqb b q); [done|].
    destruct (Ascii.eqb b backslash); [done|].
    destruct (Ascii.eqb b nl); [done|].
    by intros [= ->].
  - destruct (Ascii.eqb b q); [done|].
    destruct (Ascii.eqb b backslash); [|done]. cbn [orb negb].
    destruct (Ascii.eqb e backslash); [by intros [= <-]|].
    destruct (Ascii.eqb e squote); [by intros [= <-]|].
    destruct (Ascii.eqb e dquote); [by intros [= <-]|].
    destruct (Ascii.eqb e "n"); [by intros [= <-]|].
    destruct (Ascii.eqb e "r"); [by intros [= <-]|].
    destruct (Ascii.eqb e "t"); [by intros [= <-]|done].
  - destruct (Ascii.eqb b q); [done|].
    destruct (Ascii.eqb b backslash); [|done]. cbn [orb negb].
    destruct (Ascii.eqb e backslash); [done|].
    destruct (Ascii.eqb e squote); [done|].
    destruct (Ascii.eqb e dquote); [done|].
    destruct (Ascii.eqb e "n"); [done|].
    destruct (Ascii.eqb e "r"); [done|].
    destruct (Ascii.eqb e "t"); [done|].
    destruct (Ascii.eqb e "x"); [|done]. cbn [orb negb].
    destruct (hex_val h1) as [a|]; [|done].
    destruct (hex_val h2) as [a'|]; [|done].
    by intros [= <-].
Qed.

Lemma decode_escape_char (q c : ascii) :
  q = squote \/ q = dquote -> decode_unit q (escape_char q c) = Some c.
Proof.
  intros [-> | ->];
    destruct c as [[] [] [] [] [] [] [] []]; vm_compute; reflexivity.
Qed.

Lemma parse_escape_char (q c : ascii) (tail : str) :
  q = squote \/ q = dquote ->
  parse_str_body q (escape_char q c ++ tail) =
  match parse_str_body q tail with
  | Some (body, after) => Some (c :: body, after)
  | None => None
  end.
Proof. intros Hq. by apply parse_decode_unit, decode_escape_char. Qed.

Lemma parse_str_body_escaped (q : ascii) (s rest : str) :
  q = squote \/ q = dquote ->
  parse_str_body q (flat_map (escape_char q) s ++ q :: rest) = Some (s, rest).
Proof.
  intros Hq. induction s as [|c s IH].
  - cbn [flat_map app parse_str_body]. by rewrite Ascii.eqb_refl.
  - cbn [flat_map]. rewrite <- app_assoc, parse_escape_char by done.
    by rewrite IH.
Qed.

Lemma quote_for_cases (s : str) : quote_for s = squote \/ quote_for s = dquote.
Proof. unfold quote_for. destruct (_ && _); auto. Qed.

Lemma parse_repr_str (s rest : str) :
  parse_str (repr_str s ++ rest) = Some (s, rest).
Proof.
  unfold repr_str, parse_str. cbn [app].
  pose proof (quote_for_cases s) as Hq.
  replace (Ascii.eqb (quote_for s) squote || Ascii.eqb (quote_for s) dquote)
    with true by (destruct Hq as [-> | ->]; reflexivity).
  rewrite <- app_assoc. cbn [app]. by apply parse_str_body_escaped.
Qed.

Lemma repr_str_head (s : str) :
  exists t, repr_str s = squote :: t \/ repr_str s = dquote :: t.
Proof.
  unfold repr_str. destruct (quote_for_cases s) as [-> | ->]; eauto.
Qed.

Lemma parse_pairs_repr (fuel : nat) (d : Dict) (rest : str) :
  d <> [] -> (length d <= fuel)%nat ->
  parse_pairs fuel (join (L ", ") (repr_pair <$> d) ++ L "}" ++ rest)
  = Some (d, rest).
Proof.
  revert fuel. induction d as [|[k v] d IH]; intros fuel Hd Hfuel; [done|].
  destruct fuel as [|fuel]; [simpl in Hfuel; lia|].
  cbn [parse_pairs].
  destruct d as [|kv d].
  - cbn [fmap list_fmap join]. unfold repr_pair at 1. cbn [fst snd].
    rewrite <- !app_assoc, parse_repr_str. cbn [mbind option_bind].
    change (expect (L ": ") (L ": " ++ ?x)) with (Some x).
    cbn [mbind option_bind]. rewrite parse_repr_str. cbn [mbind option_bind].
    reflexivity.
  - change (join (L ", ") (repr_pair <$> (k, v) :: kv :: d))
      with (repr_pair (k, v) ++ L ", "
            ++ join (L ", ") (repr_pair <$> kv :: d)).
    unfold repr_pair at 1. cbn [fst snd].
    rewrite <- !app_assoc, parse_repr_str. cbn [mbind option_bind].
    change (expect (L ": ") (L ": " ++ ?x)) with (Some x).
    cbn [mbind option_bind]. rewrite parse_repr_str. cbn [mbind option_bind].
    change (expect (L "}") (L ", " ++ ?x)) with (@None str).
    change (expect (L ", ") (L ", " ++ ?x)) with (Some x).
    cbn [mbind option_bind].
    rewrite IH; [done|done|]. simpl in Hfuel |- *. lia.
Qed.

Lemma parse_dict_repr (fuel : nat) (d : Dict) (rest : str) :
  (length d <= fuel)%nat ->
  parse_dict fuel (repr_dict d ++ rest) = Some (d, rest).
Proof.
  intros Hfuel. unfold parse_dict, repr_dict.
  rewrite <- !app_assoc.
  change (expect (L "{") (L "{" ++ ?x)) with (Some x).
  cbn [mbind option_bind].
  destruct d as [|[k v] d]; [reflexivity|].
  replace (expect (L "}") _) with (@None str).
  - by apply (parse_pairs_repr fuel ((k, v) :: d) rest).
  - destruct d as [|kv d]; cbn [fmap list_fmap join]; unfold repr_pair at 1;
      cbn [fst snd];
      destruct (repr_str_head k) as [t [-> | ->]]; reflexivity.
Qed.

Lemma parse_items_repr (fuel : nat) (ds : list Dict) (rest : str) :
  ds <> [] -> (items_bound ds <= fuel)%nat ->
  parse_items fuel (join (L ", ") (repr_dict <$> ds) ++ L "]" ++ rest)
  = Some (ds, rest).
Proof.
  revert fuel. induction ds as [|d ds IH]; intros fuel Hds Hfuel; [done|].
  destruct fuel as [|fuel]; [simpl in Hfuel; lia|].
  cbn [parse_items]. cbn [items_bound] in Hfuel.
  destruct ds as [|d' ds].
  - cbn [fmap list_fmap join].
    rewrite parse_dict_repr by lia. reflexivity.
  - change (join (L ", ") (repr_dict <$> d :: d' :: ds))
      with (repr_dict d ++ L ", "
            ++ join (L ", ") (repr_dict <$> d' :: ds)).
    rewrite <- !app_assoc, parse_dict_repr by lia.
    cbn [mbind option_bind].
    change (expect (L "]") (L ", " ++ ?x)) with (@None str).
    change (expect (L ", ") (L ", " ++ ?x)) with (Some x).
    cbn [mbind option_bind].
    rewrite IH; [done|done|lia].
Qed.

Lemma length_repr_str (s : str) : (2 <= length (repr_str s))%nat.
Proof. unfold repr_str. cbn [length]. rewrite length_app. simpl. lia. Qed.

Lemma length_join_pairs (d : Dict) :
  (length d <= length (join (L ", ") (repr_pair <$> d)))%nat.
Proof.
  induction d as [|kv d IH]; [done|].
  assert (1 <= length (repr_pair kv))%nat.
  { unfold repr_pair. rewrite length_app.
    pose proof (length_repr_str kv.1). lia. }
  destruct d as [|kv' d].
  - cbn [fmap list_fmap join length]. lia.
  - change (join (L ", ") (repr_pair <$> kv :: kv' :: d))
      with (repr_pair kv ++ L ", "
            ++ join (L ", ") (repr_pair <$> kv' :: d)).
    rewrite !length_app. cbn [length] in *. lia.
Qed.

Lemma length_join_dicts (ds : list Dict) :
  (items_bound ds <= length (join (L ", ") (repr_dict <$> ds)))%nat.
Proof.
  induction ds as [|d ds IH]; [done|].
  assert (S (length d) <= length (repr_dict d))%nat.
  { unfold repr_dict. rewrite !length_app.
    pose proof (length_join_pairs d).
    change (length (L "{")) with 1%nat. change (length (L "}")) with 1%nat.
    lia. }
  destruct ds as [|d' ds].
  - cbn [fmap list_fmap join items_bound]. lia.
  - change (join (L ", ") (repr_dict <$> d :: d' :: ds))
      with (repr_dict d ++ L ", "
            ++ join (L ", ") (repr_dict <$> d' :: ds)).
    rewrite !length_app. cbn [items_bound] in *. lia.
Qed.

(** [eval(str(ds)) == ds] for a list of dictionaries of strings. *)
Lemma eval_str_list (ds : list Dict) : eval_list (str_list ds) = Some ds.
Proof.
  unfold eval_list, str_list.
  change (expect (L "[") (L "[" ++ ?x)) with (Some x).
  cbn [mbind option_bind].
  destruct ds as [|d ds]; [reflexivity|].
  replace (expect (L "]") _) with (@None str).
  - pose proof (parse_items_repr
                  (S (length (L "[" ++ join (L ", ") (repr_dict <$> d :: ds)
                              ++ L "]")))
                  (d :: ds) [] ltac:(done)) as H.
    rewrite app_nil_r in H. rewrite H; [done|].
    pose proof (length_join_dicts (d :: ds)).
    rewrite !length_app. lia.
  - destruct ds as [|d' ds]; cbn [fmap list_fmap join]; reflexivity.
Qed.

End Literals.

(** ** The relational store and the risk counts *)

Section Store.
Import Str Analysis PyRepr Database Orchestrator.

Lemma like_percent (pattern s : str) :
  like (percent :: pattern) s =
  like pattern s ||
  match s with
  | [] => false
  | _ :: s' => like (percent :: pattern) s'
  end.
Proof. by destruct s. Qed.

Lemma like_underscore (pattern s : str) :
  like (underscore :: pattern) s =
  match s with
  | [] => false
  | _ :: s' => like pattern s'
  end.
Proof. reflexivity. Qed.

Lemma like_other (c : ascii) (pattern s : str) :
  Ascii.eqb c percent = false -> Ascii.eqb c underscore = false ->
  like (c :: pattern) s =
  match s with
  | [] => false
  | d :: s' => Ascii.eqb (lower_char c) (lower_char d) && like pattern s'
  end.
Proof. intros H1 H2. cbn [like]. by rewrite H1, H2. Qed.

Lemma like_percent_skip (pattern t s : str) :
  like pattern s = true -> like (percent :: pattern) (t ++ s) = true.
Proof.
  intros H. induction t as [|d t IH]; rewrite like_percent.
  - cbn [app]. by rewrite H.
  - by rewrite <- app_comm_cons, IH, orb_true_r.
Qed.

Lemma like_percent_inv (pattern s : str) :
  like (percent :: pattern) s = true ->
  exists t s', s = t ++ s' /\ like pattern s' = true.
Proof.
  induction s as [|d s IH]; rewrite like_percent.
  - rewrite orb_false_r. intros H. by exists [], [].
  - intros H. apply orb_true_iff in H as [H|H].
    + by exists [], (d :: s).
    + destruct (IH H) as (t & s' & -> & H'). by exists (d :: t), s'.
Qed.

Lemma like_percent_prefix (pattern s k : str) :
  like pattern s = true -> like (pattern ++ [percent]) (s ++ k) = true.
Proof.
  revert s. induction pattern as [|c pattern IH]; intros s.
  - destruct s; [|done]. intros _.
    cbn [app]. rewrite <- (app_nil_r k). by apply like_percent_skip.
  - rewrite <- app_comm_cons.
    destruct (Ascii.eqb c percent) eqn:Hc.
    + apply Ascii.eqb_eq in Hc as ->. intros H.
      apply like_percent_inv in H as (t & s' & -> & H).
      rewrite <- app_assoc. by apply like_percent_skip, IH.
    + destruct (Ascii.eqb c underscore) eqn:Hu.
      * apply Ascii.eqb_eq in Hu as ->.
        destruct s as [|d s]; [done|].
        rewrite <- app_comm_cons, !like_underscore. apply IH.
      * destruct s as [|d s]; [by rewrite like_other|].
        rewrite <- app_comm_cons, !like_other by done. intros H.
        apply andb_true_iff in H as [-> H]. by apply IH.
Qed.

Lemma like_self (s : str) : like s s = true.
Proof.
  induction s as [|c s IH]; [done|].
  destruct (Ascii.eqb c percent) eqn:Hc.
  - apply Ascii.eqb_eq in Hc as ->.
    by apply (like_percent_skip s [percent] s).
  - destruct (Ascii.eqb c underscore) eqn:Hu.
    + apply Ascii.eqb_eq in Hu as ->. by rewrite like_underscore.
    + rewrite like_other by done. by rewrite Ascii.eqb_refl.
Qed.

(** The pattern [directory%] matches every path the directory prefixes. *)
Lemma like_prefix (directory path : str) :
  directory `prefix_of` path -> like (directory ++ [percent]) path = true.
Proof. intros [k ->]. apply like_percent_prefix, like_self. Qed.

Lemma clean_previous_data_no_prefix (directory : str) (t : Table) :
  Forall (fun r => ~ directory `prefix_of` file_path r)
         (rows (clean_previous_data directory t)).
Proof.
  unfold clean_previous_data, delete_like. cbn [rows].
  apply Forall_forall. intros r Hr Hpre.
  apply list_elem_of_filter in Hr as [Hr _].
  by rewrite like_prefix in Hr.
Qed.

(** *** Counting *)

Lemma zero_counts_keys (sev : str) :
  valid_severity sev -> is_Some (zero_counts !! sev).
Proof. intros [->|[->| ->]]; by eexists. Qed.

Lemma counts_ok_empty : counts_ok ∅.
Proof. intros name counts H. by rewrite lookup_empty in H. Qed.

Lemma counts_ok_lookup (rc : RiskCount) name counts sev :
  counts_ok rc -> rc !! name = Some counts -> valid_severity sev ->
  is_Some (counts !! sev).
Proof.
  intros Hok Hrc Hsev. destruct (Hok name counts Hrc) as (Hl & Hm & Hh).
  by destruct Hsev as [->|[->| ->]].
Qed.

Lemma counts_ok_insert (rc : RiskCount) name counts :
  counts_ok rc ->
  (forall sev, valid_severity sev -> is_Some (counts !! sev)) ->
  counts_ok (<[name := counts]> rc).
Proof.
  intros Hok Hc name' counts' H.
  destruct (decide (name = name')) as [<-|Hne].
  - rewrite lookup_insert_eq in H. injection H as <-.
    repeat split; apply Hc; unfold valid_severity; auto.
  - rewrite lookup_insert_ne in H by done. by apply (Hok name').
Qed.

(** With a severity among the three keys the increment finds its key. *)
Lemma count_one_ok (name sev : str) (rc : RiskCount) :
  counts_ok rc -> valid_severity sev ->
  exists rc', count_one name sev rc = (rc', false) /\ counts_ok rc'.
Proof.
  intros Hok Hsev. unfold count_one.
  set (rc1 := match rc !! name with
              | Some _ => rc
              | None => <[name := zero_counts]> rc
              end).
  assert (counts_ok rc1) as Hok1.
  { unfold rc1. destruct (rc !! name); [done|].
    apply counts_ok_insert; [done|]. apply zero_counts_keys. }
  assert (is_Some (rc1 !! name)) as [counts Hcounts].
  { unfold rc1. destruct (rc !! name) eqn:E; [by rewrite E|].
    rewrite lookup_insert_eq. by eexists. }
  rewrite Hcounts.
  destruct (counts_ok_lookup rc1 name counts sev Hok1 Hcounts Hsev)
    as [n Hn].
  rewrite Hn. eexists. split; [done|].
  apply counts_ok_insert; [done|]. intros sev' Hsev'.
  destruct (decide (sev = sev')) as [<-|Hne].
  - rewrite lookup_insert_eq. by eexists.
  - rewrite lookup_insert_ne by done.
    by apply (counts_ok_lookup rc1 name).
Qed.

Lemma count_risks_ok (fs : list Finding) (rc : RiskCount) :
  counts_ok rc -> Forall (fun f => valid_severity (severity f)) fs ->
  exists rc', count_risks fs rc = (rc', false) /\ counts_ok rc'.
Proof.
  intros Hok Hfs. revert rc Hok.
  induction Hfs as [|f fs Hf Hfs IH]; intros rc Hok.
  - by exists rc.
  - cbn [count_risks].
    destruct (count_one_ok (risk_name f) (severity f) rc Hok Hf)
      as (rc1 & -> & Hok1).
    by apply IH.
Qed.

(** The loop over the dictionaries read back does what the loop over the
    findings did. *)
Lemma count_dicts_findings (fs : list Finding) (rc : RiskCount) :
  count_dicts (finding_dict <$> fs) rc =
  match count_risks fs rc with
  | (rc', false) => Some rc'
  | (_, true) => None
  end.
Proof.
  revert rc. induction fs as [|f fs IH]; intros rc; [done|].
  cbn [fmap list_fmap count_dicts count_risks].
  change (dict_get (L "risk_name") (finding_dict f)) with (Some (risk_name f)).
  change (dict_get (L "severity") (finding_dict f)) with (Some (severity f)).
  cbn [mbind option_bind].
  destruct (count_one (risk_name f) (severity f) rc) as [rc1 [|]]; [done|].
  apply IH.
Qed.

Lemma detect_valid_severity (analysis content : str) :
  Forall (fun f => valid_severity (severity f))
         (detect_owasp_risks analysis content).
Proof.
  rewrite detect_concat. apply Forall_concat, Forall_fmap, Forall_forall.
  intros block _. unfold compose. rewrite loop_body_candidate.
  destruct (candidate block) as [f|] eqn:Hc; [|done].
  destruct (uncorroborated _ _); [done|].
  apply Forall_singleton.
  apply candidate_fields in Hc as (n & sv & r & _ & Hs & _ & ->).
  by apply severity_match_values in Hs.
Qed.

Lemma replay_rows_app (rs1 rs2 : list ScanRecord) (rc : RiskCount) :
  replay_rows (rs1 ++ rs2) rc = replay_rows rs1 rc ≫= replay_rows rs2.
Proof.
  revert rc. induction rs1 as [|r rs1 IH]; intros rc; [done|].
  cbn [app replay_rows].
  destruct (eval_list (risks r)) as [ds|]; [|done]. cbn [mbind option_bind].
  destruct (count_dicts ds rc) as [rc1|]; [|done]. cbn [mbind option_bind].
  apply IH.
Qed.

(** Replaying a row written from the findings [fs]. *)
Lemma replay_row_findings (r : ScanRecord) (fs : list Finding)
      (rc rc' : RiskCount) :
  risks r = str_risks fs -> count_risks fs rc = (rc', false) ->
  replay_rows [r] rc = Some rc'.
Proof.
  intros Hr Hc. cbn [replay_rows]. rewrite Hr. unfold str_risks.
  rewrite eval_str_list. cbn [mbind option_bind].
  rewrite count_dicts_findings, Hc. done.
Qed.

End Store.

(** ** The scan orchestrator *)

Section Scan.
Import Str Analysis Eff Completion PyRepr Database Orchestrator.

Lemma attempt_body_log nc qf f (backend : Backend) (k : nat) :
  log_independent (attempt_body nc qf f backend k).
Proof.
  intros log. rewrite !attempt_body_result.
  destruct (attempt_result nc backend k) as [t|e]; [done|].
  destruct (quota_error e); [|done].
  destruct (k <? max_retries - 1)%nat; [|done].
  cbn [fst snd app]. by rewrite <- app_assoc.
Qed.

Lemma for_attempts_log (body : nat -> M (option str)) (attempts : list nat) :
  (forall k, log_independent (body k)) ->
  log_independent (for_attempts body attempts).
Proof.
  intros Hbody. induction attempts as [|a attempts IH]; intros log.
  - cbn. by rewrite app_nil_r.
  - cbn [for_attempts]. unfold bind.
    rewrite (Hbody a log).
    destruct (body a []) as [[[v|]|e] l0] eqn:E; cbn [fst snd].
    + done.
    + rewrite (IH (log ++ l0)), (IH l0). cbn [fst snd].
      by rewrite <- app_assoc.
    + done.
Qed.

Lemma analyze_log (model_type : ModelType) (f : FileObs) :
  log_independent (analyze model_type f).
Proof.
  destruct model_type; unfold analyze.
  - intros log. unfold analyze_with_ollama, try_except, bind, emit, lift, ret.
    by destruct (f_ollama f).
  - apply for_attempts_log. intros k. apply attempt_body_log.
Qed.

(** A file that is not read and analysed successfully changes nothing but
    the log. *)
Lemma scan_file_not_analysed model_type (st : ScanState) (f : FileObs) :
  analysed model_type f = None ->
  exists log', scan_file model_type st f = with_log st log'.
Proof.
  unfold analysed, analysis_of, scan_file. intros H.
  assert (st = with_log st (log st)) as Hst by by destruct st.
  destruct (f_content f) as [[|c content]|]; [by eexists..| |by eexists].
  rewrite (analyze_log model_type f (log st)).
  destruct ((analyze model_type f []).1) as [[analysis|]|e];
    [|by eexists..].
  destruct (skipped analysis); [by eexists|done].
Qed.

(** A file that is read and analysed successfully has its findings counted
    without [KeyError], then its row written, then its documents handed to
    the vector store. *)
Lemma scan_file_analysed model_type (st : ScanState) (f : FileObs)
      (content analysis : str) :
  analysed model_type f = Some (content, analysis) ->
  counts_ok (risk_count st) ->
  let detected := detect_owasp_risks analysis content in
  let stored := store_in_vector_db (f_path f) content analysis
                  detect_owasp_risks (f_add_ok f) (collection st) in
  exists rc' log' results',
    count_risks detected (risk_count st) = (rc', false) /\
    counts_ok rc' /\
    scan_file model_type st f =
    {| db := store_in_database (f_path f) content detected analysis (db st);
       collection := stored.1;
       results := results';
       risk_count := rc';
       log := log' |}.
Proof.
  intros H Hok detected stored. revert H.
  unfold analysed, analysis_of, scan_file. intros H.
  destruct (f_content f) as [[|c content']|]; [done| |done].
  rewrite (analyze_log model_type f (log st)).
  destruct ((analyze model_type f []).1) as [[analysis'|]|e]; [|done..].
  destruct (skipped analysis') eqn:Hskip; [done|].
  injection H as <- <-. fold detected.
  destruct (count_risks_ok detected (risk_count st) Hok
              (detect_valid_severity _ _)) as (rc' & Hc & Hok').
  rewrite Hc. fold stored.
  exists rc'. destruct stored as [collection1 [|]]; by eexists _, _.
Qed.

Lemma persisted_analysed model_type (f : FileObs) :
  persisted model_type f = true <->
  exists content analysis, analysed model_type f = Some (content, analysis).
Proof.
  unfold persisted. destruct (analysed model_type f) as [[c a]|].
  - split; [by exists c, a|done].
  - split; [done|]. by intros (c & a & ?).
Qed.

Lemma scan_directory_foldl directory model_type files db0 collection0 log0 :
  scan_directory directory model_type files db0 collection0 log0 =
  foldl (scan_file model_type)
        {| db := clean_previous_data directory db0;
           collection := collection0; results := []; risk_count := ∅;
           log := log0 |}
        files.
Proof. by destruct files. Qed.

(** What a sequence of iterations does to the table and to the risk count:
    one row is appended for every file read and analysed successfully, each
    row holds the findings of its own analysis and content, and replaying
    the appended rows from the risk count at the start gives the risk count
    at the end. *)
Lemma scan_fold model_type (files : list FileObs) (st : ScanState) :
  counts_ok (risk_count st) ->
  exists written,
    rows (db (foldl (scan_file model_type) st files))
      = rows (db st) ++ written /\
    file_path <$> written
      = f_path <$> filter (fun f => persisted model_type f = true) files /\
    Forall row_from_extractor written /\
    replay_rows written (risk_count st)
      = Some (risk_count (foldl (scan_file model_type) st files)) /\
    counts_ok (risk_count (foldl (scan_file model_type) st files)).
Proof.
  revert st. induction files as [|f files IH]; intros st Hok.
  - exists []. cbn [foldl]. by rewrite app_nil_r.
  - cbn [foldl].
    destruct (analysed model_type f) as [[content analysis]|] eqn:Han.
    + destruct (scan_file_analysed model_type st f content analysis Han Hok)
        as (rc' & log' & results' & Hc & Hok' & Hst).
      rewrite Hst.
      match goal with |- context [foldl _ ?s files] => set (st1 := s) end.
      destruct (IH st1 Hok') as (written & Hrows & Hpaths & Hext & Hrep & Hfin).
      set (r := {| id := S (last_id (db st)); file_path := f_path f;
                   content := content;
                   risks := str_risks (detect_owasp_risks analysis content);
                   analysis := analysis |}).
      exists (r :: written).
      split; [|split; [|split; [|split]]].
      * rewrite Hrows. unfold st1. cbn [db store_in_database rows].
        by rewrite <- app_assoc.
      * rewrite filter_cons_True
          by (apply persisted_analysed; by exists content, analysis).
        cbn [fmap list_fmap]. by rewrite <- Hpaths.
      * by constructor.
      * change (r :: written) with ([r] ++ written).
        rewrite replay_rows_app.
        rewrite (replay_row_findings r
                   (detect_owasp_risks analysis content) (risk_count st) rc')
          by done.
        exact Hrep.
      * done.
    + destruct (scan_file_not_analysed model_type st f Han) as [log' ->].
      destruct (IH (with_log st log') Hok)
        as (written & Hrows & Hpaths & Hext & Hrep & Hfin).
      exists written. split; [done|]. split; [|done].
      rewrite filter_cons_False; [done|].
      unfold persisted. by rewrite Han.
Qed.

Lemma filter_all {A} (P : A -> Prop) `{forall x, Decision (P x)}
      (l : list A) :
  Forall P l -> filter P l = l.
Proof.
  induction 1 as [|x l Hx _ IH]; [done|].
  by rewrite filter_cons_True, IH.
Qed.

Lemma filter_none {A} (P : A -> Prop) `{forall x, Decision (P x)}
      (l : list A) :
  Forall (fun x => ~ P x) l -> filter P l = [].
Proof.
  induction 1 as [|x l Hx _ IH]; [done|].
  by rewrite filter_cons_False.
Qed.

(** C6 (as amended). A scan first deletes every record whose path the
    directory prefixes, and then appends one record for every file that is
    read and analysed successfully. Hence after two scans of a directory,
    the records under the directory are, in order, those of the files of the
    second scan that were read and analysed successfully, one for each, and
    none is left from the first scan. *)
Theorem rescan_replaces_rows (directory : str) (mt1 mt2 : ModelType)
        (files1 files2 : list FileObs) (db0 : Table)
        (collection0 : Collection) (log0 : list Event) :
  Forall (fun f => directory `prefix_of` f_path f) files2 ->
  let st1 := scan_directory directory mt1 files1 db0 collection0 log0 in
  let st2 := scan_directory directory mt2 files2 (db st1) (collection st1)
                            (log st1) in
  Forall (fun r => ~ directory `prefix_of` file_path r)
         (rows (clean_previous_data directory (db st1))) /\
  (exists written,
      rows (db st2) = rows (clean_previous_data directory (db st1)) ++ written
      /\ file_path <$> written
         = f_path <$> filter (fun f => persisted mt2 f = true) files2) /\
  file_path <$> filter (fun r => directory `prefix_of` file_path r)
                       (rows (db st2))
  = f_path <$> filter (fun f => persisted mt2 f = true) files2.
Proof.
  intros Hfiles st1 st2.
  pose proof (clean_previous_data_no_prefix directory (db st1)) as Hclean.
  split; [done|].
  unfold st2. rewrite scan_directory_foldl.
  match goal with |- context [foldl _ ?s files2] => set (start := s) end.
  destruct (scan_fold mt2 files2 start counts_ok_empty)
    as (written & Hrows & Hpaths & _).
  split; [by exists written|].
  rewrite Hrows. unfold start. cbn [db]. rewrite filter_app.
  rewrite (filter_none _ _ Hclean). cbn [app].
  rewrite <- Hpaths. f_equal. apply filter_all.
  assert (Forall (fun p => directory `prefix_of` p) (file_path <$> written))
    as Hall.
  { rewrite Hpaths. apply Forall_fmap, Forall_forall. intros f Hf.
    apply list_elem_of_filter in Hf as [_ Hf].
    by apply (proj1 (Forall_forall _ _) Hfiles). }
  apply Forall_forall. intros r Hr.
  apply (proj1 (Forall_forall _ _) Hall).
  by apply list_elem_of_fmap_2.
Qed.

Lemma rescan_replaces_rows_witness :
  Forall (fun f => L "proj" `prefix_of` f_path f) [secret_file; clean_file] /\
  let st1 := scan_directory (L "proj") OLLAMA [clean_file; secret_file]
                            empty_table [] [] in
  let st2 := scan_directory (L "proj") Gemini [secret_file; clean_file]
                            (db st1) (collection st1) (log st1) in
  file_path <$> filter (fun r => L "proj" `prefix_of` file_path r)
                       (rows (db st2))
  = f_path <$> filter (fun f => persisted Gemini f = true)
                      [secret_file; clean_file].
Proof.
  assert (Forall (fun f => L "proj" `prefix_of` f_path f)
                 [secret_file; clean_file]) as H.
  { repeat constructor; compute_done. }
  split; [exact H|].
  exact (proj2 (proj2 (rescan_replaces_rows (L "proj") OLLAMA Gemini
           [clean_file; secret_file] [secret_file; clean_file]
           empty_table [] [] H))).
Defined.

(** C6 (as the specification states it) fails: a file of the second scan
    for which the backend reports no vulnerability gets no record. *)
Lemma rescan_skipped_file_counterexample :
  let st1 := scan_directory (L "proj") OLLAMA [secret_file; clean_file]
                            empty_table [] [] in
  let st2 := scan_directory (L "proj") OLLAMA [secret_file; clean_file]
                            (db st1) (collection st1) (log st1) in
  file_path <$> rows (db st2) = [L "proj/ci.yml"] /\
  ~ one_record_per_file [secret_file; clean_file] (db st2).
Proof.
  intros st1 st2. split; [by vm_compute|].
  intros H. specialize (H clean_file ltac:(right; left)).
  revert H. by vm_compute.
Qed.

(** C8 (as amended). The risk count a scan returns is the replay of the
    records the scan wrote. [load_risk_count_from_db] replays the whole
    table, so it returns that risk count when the invalidation step of the
    scan leaves no earlier record in the table, as when the scan starts from
    an empty table. The replay is a function of the rows alone. *)
Theorem risk_count_replay (directory : str) (model_type : ModelType)
        (files : list FileObs) (db0 : Table) (collection0 : Collection)
        (log0 : list Event) :
  let st := scan_directory directory model_type files db0 collection0 log0 in
  (exists written,
      rows (db st) = rows (clean_previous_data directory db0) ++ written /\
      replay_rows written ∅ = Some (risk_count st)) /\
  (rows (clean_previous_data directory db0) = [] ->
   load_risk_count_from_db (db st) = Some (risk_count st)) /\
  (forall t1 t2, rows t1 = rows t2 ->
     load_risk_count_from_db t1 = load_risk_count_from_db t2).
Proof.
  intros st. unfold st. rewrite scan_directory_foldl.
  match goal with |- context [foldl _ ?s files] => set (start := s) end.
  destruct (scan_fold model_type files start counts_ok_empty)
    as (written & Hrows & _ & _ & Hrep & _).
  change (risk_count start) with (∅ : RiskCount) in Hrep.
  change (rows (db start)) with (rows (clean_previous_data directory db0))
    in Hrows.
  split; [by exists written|]. split.
  - intros Hempty. unfold load_risk_count_from_db.
    by rewrite Hrows, Hempty.
  - intros t1 t2 H. unfold load_risk_count_from_db. by rewrite H.
Qed.

Lemma risk_count_replay_witness :
  rows (clean_previous_data (L "proj") empty_table) = [] /\
  let st := scan_directory (L "proj") Gemini
                           [secret_file; clean_file; secret_file]
                           empty_table [] [] in
  load_risk_count_from_db (db st) = Some (risk_count st).
Proof.
  split; [reflexivity|].
  exact (proj1 (proj2 (risk_count_replay (L "proj") Gemini
           [secret_file; clean_file; secret_file] empty_table [] []))
           eq_refl).
Defined.

(** C8 (as the specification states it) fails: the table holds no record
    under the scanned directory, but the record of another directory stays
    and is counted by the replay, not by the scan. *)
Lemma risk_count_other_directory_counterexample :
  let db0 := {| rows := [other_row]; last_id := 1 |} in
  let st := scan_directory (L "proj") OLLAMA [secret_file] db0 [] [] in
  Forall (fun r => ~ L "proj" `prefix_of` file_path r) (rows db0) /\
  count_of (risk_count st) (L "Insecure Registry Access") (L "High") = 0 /\
  (fun rc => count_of rc (L "Insecure Registry Access") (L "High"))
    <$> load_risk_count_from_db (db st) = Some 1 /\
  load_risk_count_from_db (db st) <> Some (risk_count st).
Proof.
  intros db0 st.
  assert (count_of (risk_count st) (L "Insecure Registry Access") (L "High")
          = 0) as Hscan by (by vm_compute).
  assert ((fun rc => count_of rc (L "Insecure Registry Access") (L "High"))
            <$> load_risk_count_from_db (db st) = Some 1) as Hload
    by (by vm_compute).
  split; [repeat constructor; compute_done|]. split; [done|].
  split; [done|].
  intros H. rewrite H in Hload. cbn [fmap option_fmap option_map] in Hload.
  rewrite Hscan in Hload. discriminate Hload.
Qed.

(** C10. Every finding of the extractor has one of the three severities;
    so the counting loop of a scan, started from a risk count whose inner
    dictionaries have the three keys (the empty one of a new scan among
    them), never raises [KeyError], and neither does the replay of a table
    whose rows hold findings of the extractor, which is what every scan
    leaves. *)
Theorem severity_keys_present (analysis content : str) :
  Forall (fun f => severity f = L "Low" \/ severity f = L "Medium" \/
                   severity f = L "High")
         (detect_owasp_risks analysis content) /\
  (forall rc, counts_ok rc ->
     exists rc', count_risks (detect_owasp_risks analysis content) rc
                 = (rc', false) /\ counts_ok rc') /\
  (forall t : Table, Forall row_from_extractor (rows t) ->
     is_Some (load_risk_count_from_db t)) /\
  (forall directory model_type files db0 collection0 log0,
     Forall row_from_extractor (rows db0) ->
     Forall row_from_extractor
       (rows (db (scan_directory directory model_type files db0
                                 collection0 log0)))).
Proof.
  split; [apply detect_valid_severity|]. split; [|split].
  - intros rc Hok. apply count_risks_ok; [done|apply detect_valid_severity].
  - intros t Ht. unfold load_risk_count_from_db.
    assert (forall rs rc, Forall row_from_extractor rs -> counts_ok rc ->
              exists rc', replay_rows rs rc = Some rc' /\ counts_ok rc') as H.
    { induction rs as [|r rs IH]; intros rc Hrs Hok; [by exists rc|].
      apply Forall_cons in Hrs as [Hr Hrs].
      destruct (count_risks_ok (detect_owasp_risks (Database.analysis r)
                                                   (Database.content r))
                  rc Hok (detect_valid_severity _ _)) as (rc1 & Hc & Hok1).
      change (r :: rs) with ([r] ++ rs). rewrite replay_rows_app.
      rewrite (replay_row_findings r _ rc rc1 Hr Hc).
      cbn [mbind option_bind]. by apply IH. }
    destruct (H (rows t) ∅ Ht counts_ok_empty) as (rc' & -> & _).
    by eexists.
  - intros directory model_type files db0 collection0 log0 Hdb0.
    rewrite scan_directory_foldl.
    match goal with |- context [foldl _ ?s files] => set (start := s) end.
    destruct (scan_fold model_type files start counts_ok_empty)
      as (written & -> & _ & Hext & _).
    apply Forall_app. split; [|done].
    unfold start, clean_previous_data, delete_like. cbn [db rows].
    apply Forall_forall. intros r Hr.
    apply list_elem_of_filter in Hr as [_ Hr].
    by apply (proj1 (Forall_forall _ _) Hdb0).
Qed.

Lemma severity_keys_present_witness :
  counts_ok ∅ /\
  Forall row_from_extractor [other_row] /\
  (exists rc', count_risks
                 (detect_owasp_risks (render [secret_block; registry_block])
                                     (L "image and password"))
                 ∅ = (rc', false) /\ counts_ok rc') /\
  is_Some (load_risk_count_from_db {| rows := [other_row]; last_id := 1 |}).
Proof.
  assert (Forall row_from_extractor [other_row]) as Hrow
    by (repeat constructor; by vm_compute).
  split; [apply counts_ok_empty|]. split; [done|].
  destruct (severity_keys_present
              (render [secret_block; registry_block])
              (L "image and password")) as (_ & Hcount & Hload & _).
  split.
  - apply Hcount, counts_ok_empty.
  - by apply Hload.
Defined.

(** *** The two stores *)

Lemma metadata_base_lookup (path content analysis : str)
      (detect : str -> str -> list Finding) :
  metadata_base path content analysis detect !! L "file_path"
    = Some (VStr path) /\
  metadata_base path content analysis detect !! L "risks"
    = Some (VStr (str_risks (detect analysis content))).
Proof.
  unfold metadata_base. split.
  - by rewrite lookup_insert_eq.
  - do 3 (rewrite lookup_insert_ne by compute_done).
    by rewrite lookup_insert_eq.
Qed.

(** Every document of a batch carries the path of the file and the text of
    what the function passed in returns for the analysis and the content. *)
Lemma batch_metadata (path content analysis : str)
      (detect : str -> str -> list Finding) (d : VectorDoc) :
  d ∈ batch path content analysis detect ->
  v_metadata d !! L "file_path" = Some (VStr path) /\
  v_metadata d !! L "risks" = Some (VStr (str_risks (detect analysis content))).
Proof.
  unfold batch. intros Hd. apply elem_of_app in Hd as [Hd|Hd].
  - apply elem_of_lookup_imap in Hd as (i & chunk & -> & _).
    cbn [v_metadata].
    rewrite !(lookup_insert_ne _ (L "chunk_id")) by compute_done.
    apply metadata_base_lookup.
  - apply list_elem_of_singleton in Hd as ->. cbn [v_metadata].
    apply metadata_base_lookup.
Qed.

Lemma scan_fold_collection model_type (collection0 : Collection)
      (files : list FileObs) (st : ScanState) :
  counts_ok (risk_count st) ->
  (forall d, d ∈ collection st ->
     d ∈ collection0 \/
     exists r, r ∈ rows (db st) /\ row_from_extractor r /\ row_matches d r) ->
  forall d, d ∈ collection (foldl (scan_file model_type) st files) ->
    d ∈ collection0 \/
    exists r, r ∈ rows (db (foldl (scan_file model_type) st files)) /\
              row_from_extractor r /\ row_matches d r.
Proof.
  revert st. induction files as [|f files IH]; intros st Hok Hinv; [done|].
  cbn [foldl].
  destruct (analysed model_type f) as [[content analysis]|] eqn:Han.
  - destruct (scan_file_analysed model_type st f content analysis Han Hok)
      as (rc' & log' & results' & Hc & Hok' & ->).
    apply IH; [done|]. cbn [collection db].
    set (r := {| id := S (last_id (db st)); file_path := f_path f;
                 content := content;
                 risks := str_risks (detect_owasp_risks analysis content);
                 analysis := analysis |}).
    assert (forall d,
              d ∈ filter (fun d => starts_with (normalize (f_path f))
                                               (v_id d) = false)
                         (collection st) ->
              d ∈ collection0 \/
              exists r', r' ∈ rows (db st) ++ [r] /\
                         row_from_extractor r' /\ row_matches d r')
      as Hkept.
    { intros d Hd. apply list_elem_of_filter in Hd as [_ Hd].
      destruct (Hinv d Hd) as [?|(r' & Hr' & ? & ?)]; [by left|].
      right. exists r'. split; [|done]. apply elem_of_app. by left. }
    intros d. unfold store_in_vector_db.
    destruct (f_add_ok f); cbn [fst]; [|apply Hkept].
    intros Hd. apply elem_of_app in Hd as [Hd|Hd]; [by apply Hkept|].
    right. exists r. split; [|split].
    + apply elem_of_app. right. by apply list_elem_of_singleton.
    + done.
    + by apply batch_metadata in Hd.
  - destruct (scan_file_not_analysed model_type st f Han) as [log' ->].
    by apply IH.
Qed.



End Scan.

(** ** The query path *)

Section Query.
Import Str Re Eff Database.








End Query.

(* ===================================================================== *)
(** * Further properties *)
(* ===================================================================== *)

(** ** The chunks of a text *)

Section ChunkRebuild.
Import Utils Chunks Database.

Lemma arith_windows_snoc len c o (m : nat) :
  arith_windows len c o 0 (S m) =
  arith_windows len c o 0 m ++
  [(Z.of_nat m * (c - o), Z.min (Z.of_nat m * (c - o) + c) len)].
Proof.
  unfold arith_windows. rewrite seq_S, fmap_app. reflexivity.
Qed.

Lemma rebuild_snoc (o : Z) (chunks : list str) (x : str) :
  chunks <> [] ->
  rebuild o (chunks ++ [x]) = rebuild o chunks ++ drop (Z.to_nat o) x.
Proof.
  destruct chunks as [|first rest]; [done|]. intros _.
  cbn [rebuild app]. rewrite fmap_app, concat_app. cbn [fmap list_fmap concat].
  by rewrite app_nil_r, app_assoc.
Qed.

Lemma window_count_le_length (len s : Z) :
  0 < s -> 0 <= len -> (window_count len s <= Z.to_nat len)%nat.
Proof.
  intros Hs Hlen. unfold window_count.
  assert ((len + s - 1) / s <= len); [|lia].
  destruct (decide (len = 0)) as [->|Hne].
  - rewrite Z.div_small; lia.
  - assert ((len + s - 1) / s < len + 1); [|lia].
    apply Z.div_lt_upper_bound; nia.
Qed.

(** The chunks of the [m] first windows put back together are a prefix of
    the text: what lies before the end of the last of these windows. *)
Lemma rebuild_prefix (text : str) (c o : Z) (m : nat) :
  0 <= o < c ->
  let len := Z.of_nat (length text) in
  (m < window_count len (c - o))%nat ->
  rebuild o (cut text <$> arith_windows len c o 0 (S m)) =
  take (Z.to_nat (Z.min (Z.of_nat m * (c - o) + c) len)) text.
Proof.
  intros Hco len. induction m as [|m IH]; intros Hm.
  - unfold arith_windows. cbn [seq fmap list_fmap rebuild concat].
    rewrite app_nil_r. unfold cut. cbn [fst snd].
    replace (Z.of_nat 0 * (c - o)) with 0 by lia.
    destruct (slice_in_range text 0 (Z.min (0 + c) len)) as [-> _];
      [lia|unfold len; lia|].
    rewrite drop_0. f_equal. lia.
  - rewrite arith_windows_snoc, fmap_app. cbn [fmap list_fmap].
    rewrite rebuild_snoc.
    2:{ intros Hnil. apply (f_equal length) in Hnil.
        unfold arith_windows in Hnil.
        rewrite !length_fmap, length_seq in Hnil. done. }
    rewrite IH by lia.
    apply (start_below_count len (c - o)) in Hm; [|lia|unfold len; lia].
    set (a := Z.of_nat (S m) * (c - o)) in *.
    assert (0 <= a) by (unfold a; nia).
    assert (Z.of_nat m * (c - o) + c = a + o) as -> by (unfold a; lia).
    unfold cut. cbn [fst snd].
    destruct (slice_in_range text a (Z.min (a + c) len)) as [-> _];
      [lia|unfold len; lia|].
    rewrite skipn_firstn_comm, drop_drop.
    destruct (decide (a + o <= len)) as [Hle|Hgt].
    + replace (Z.min (a + o) len) with (a + o) by lia.
      replace (Z.to_nat a + Z.to_nat o)%nat with (Z.to_nat (a + o)) by lia.
      rewrite take_take_drop. f_equal. lia.
    + replace (Z.to_nat (Z.min (a + c) len - a) - Z.to_nat o)%nat
        with 0%nat by lia.
      rewrite take_0, app_nil_r. f_equal. lia.
Qed.

(** With too few iterations the loop is still running. *)
Lemma window_loop_short fuel text c o (k0 : nat) ws :
  0 < c - o ->
  (fuel < window_count (Z.of_nat (length text)) (c - o) - k0)%nat ->
  window_loop fuel text c o (Z.of_nat k0 * (c - o)) ws = None.
Proof.
  intros Hs. revert k0 ws.
  induction fuel as [|fuel IH]; intros k0 ws Hfuel; cbn [window_loop].
  - destruct (Z.ltb_spec (Z.of_nat k0 * (c - o)) (Z.of_nat (length text)))
      as [|Hge]; [done|].
    assert (k0 < window_count (Z.of_nat (length text)) (c - o))%nat as Hk
      by lia.
    apply start_below_count in Hk; lia.
  - destruct (Z.ltb_spec (Z.of_nat k0 * (c - o)) (Z.of_nat (length text)))
      as [Hlt|Hge].
    + replace (Z.of_nat k0 * (c - o) + (c - o))
        with (Z.of_nat (S k0) * (c - o)) by lia.
      apply IH. lia.
    + assert (k0 < window_count (Z.of_nat (length text)) (c - o))%nat as Hk
        by lia.
      apply start_below_count in Hk; lia.
Qed.

(** Whatever the number of iterations allowed, a result of [chunk_text] is
    the list of the slices of the arithmetic windows. *)
Lemma chunk_text_result (text : str) (c o : Z) (fuel : nat)
      (chunks : list str) :
  0 < c - o ->
  chunk_text fuel text c o = Some chunks ->
  chunks = cut text <$>
           arith_windows (Z.of_nat (length text)) c o 0
             (window_count (Z.of_nat (length text)) (c - o)).
Proof.
  intros Hs Hchunks.
  destruct (decide (window_count (Z.of_nat (length text)) (c - o) <= fuel)%nat)
    as [Hle|Hgt].
  - destruct (chunk_text_enough_fuel fuel text c o Hs Hle) as [_ H].
    rewrite H in Hchunks. by injection Hchunks as <-.
  - exfalso. unfold chunk_text in Hchunks.
    change (@nil str) with (cut text <$> []) in Hchunks.
    rewrite chunk_loop_windows in Hchunks.
    pose proof (window_loop_short fuel text c o 0 [] Hs ltac:(lia)) as H.
    replace (Z.of_nat 0 * (c - o)) with 0 in H by lia.
    by rewrite H in Hchunks.
Qed.

(** X1. No text is lost by the chunker: for every text and sizes with
    [0 <= overlap < chunk_size], the chunks returned by [chunk_text], the
    later ones without the [overlap] characters they repeat, put the text
    back together. *)
Theorem chunk_text_rebuild (text : str) (c o : Z) (fuel : nat)
        (chunks : list str) :
  0 <= o < c ->
  chunk_text fuel text c o = Some chunks ->
  rebuild o chunks = text.
Proof.
  intros Hco Hchunks.
  apply chunk_text_result in Hchunks as ->; [|lia].
  destruct (window_count (Z.of_nat (length text)) (c - o)) as [|m] eqn:Hn.
  - unfold arith_windows. cbn [seq fmap list_fmap rebuild].
    destruct text as [|ch text]; [done|]. exfalso.
    assert (Z.of_nat 0 * (c - o) < Z.of_nat (length (ch :: text))) as H0
      by (cbn [length]; lia).
    apply start_below_count in H0; lia.
  - rewrite (rebuild_prefix text c o m Hco) by lia.
    apply take_ge.
    assert (~ (S m < window_count (Z.of_nat (length text)) (c - o))%nat)
      as Hlast by lia.
    rewrite <- start_below_count in Hlast by lia.
    lia.
Qed.

Lemma chunk_text_rebuild_witness :
  0 <= 3 < 4 /\
  chunk_text 6 (L "abcdef") 4 3 =
    Some [L "abcd"; L "bcde"; L "cdef"; L "def"; L "ef"; L "f"] /\
  rebuild 3 [L "abcd"; L "bcde"; L "cdef"; L "def"; L "ef"; L "f"]
  = L "abcdef".
Proof.
  split; [lia|]. split; [reflexivity|].
  apply (chunk_text_rebuild (L "abcdef") 4 3 6); [lia|reflexivity].
Defined.

(** X2. Whenever [overlap < chunk_size], as many iterations as the text has
    characters are enough for [chunk_text] to return, and it returns the
    quotient of the length by the step, rounded up, many chunks: none for
    the empty text. With the default sizes this is the list
    [store_in_vector_db] stores, of non-empty chunks of at most 1000
    characters. *)
Theorem chunk_text_count (text : str) (c o : Z) :
  o < c ->
  let len := Z.of_nat (length text) in
  exists chunks,
    chunk_text (length text) text c o = Some chunks /\
    Z.of_nat (length chunks) = (len + (c - o) - 1) / (c - o) /\
    (text = [] -> chunks = []) /\
    (c = 1000 -> o = 200 ->
     chunk_text_default text = chunks /\
     Forall (fun chunk => (0 < length chunk <= 1000)%nat) chunks).
Proof.
  intros Hco len.
  assert (window_count len (c - o) <= length text)%nat as Hfuel.
  { pose proof (window_count_le_length len (c - o) ltac:(lia)
                                       ltac:(unfold len; lia)).
    unfold len in *. lia. }
  destruct (chunk_text_enough_fuel (length text) text c o ltac:(lia) Hfuel)
    as [_ Hchunks].
  eexists. split; [exact Hchunks|]. split; [|split].
  - rewrite length_fmap. unfold arith_windows.
    rewrite length_fmap, length_seq. unfold window_count.
    assert (0 <= (len + (c - o) - 1) / (c - o))
      by (apply Z.div_pos; unfold len; lia).
    fold len. lia.
  - intros ->. cbn [length] in Hfuel.
    replace (window_count (Z.of_nat (length (@nil ascii))) (c - o))
      with 0%nat by (unfold len in Hfuel; cbn [length] in *; lia).
    reflexivity.
  - intros -> ->. split.
    + unfold chunk_text_default. by rewrite Hchunks.
    + apply Forall_fmap, Forall_forall. intros w Hw. unfold compose.
      apply list_elem_of_lookup in Hw as [k Hk].
      apply arith_windows_lookup in Hk as [Hk ->]. unfold cut. cbn [fst snd].
      apply start_below_count in Hk; [|lia..].
      destruct (slice_in_range text (Z.of_nat k * (1000 - 200))
                  (Z.min (Z.of_nat k * (1000 - 200) + 1000)
                         (Z.of_nat (length text))))
        as [_ Hlen]; lia.
Qed.

Lemma chunk_text_count_witness :
  200 < 1000 /\
  exists chunks,
    chunk_text 3 (L "run") 1000 200 = Some chunks /\
    Z.of_nat (length chunks) = (3 + (1000 - 200) - 1) / (1000 - 200).
Proof.
  split; [lia|].
  destruct (chunk_text_count (L "run") 1000 200 ltac:(lia))
    as (chunks & H1 & H2 & _).
  by exists chunks.
Defined.

End ChunkRebuild.

(** ** The LIKE operator in the invalidation and in the browser *)

Section LikeFacts.
Import Str Database Orchestrator Sql Ui.

(** Whatever wildcards the pattern holds, it matches the texts it prefixes
    up to letter case. *)
Lemma like_prefix_ci (pattern s : str) :
  prefix_ci pattern s -> like (pattern ++ [percent]) s = true.
Proof.
  unfold prefix_ci. revert s.
  induction pattern as [|c pattern IH]; intros s Hpre.
  - cbn [app]. rewrite <- (app_nil_r s). by apply like_percent_skip.
  - destruct s as [|d s].
    { destruct Hpre as [k Hk]. done. }
    destruct Hpre as [k Hk]. cbn in Hk. injection Hk as Hcd Hk.
    assert (like (pattern ++ [percent]) s = true) as Hrest
      by (apply IH; by exists k).
    rewrite <- app_comm_cons.
    destruct (Ascii.eqb c percent) eqn:Hc.
    + apply Ascii.eqb_eq in Hc as ->.
      by apply (like_percent_skip _ [d]).
    + destruct (Ascii.eqb c underscore) eqn:Hu.
      * apply Ascii.eqb_eq in Hu as ->. by rewrite like_underscore.
      * rewrite like_other by done. rewrite Hrest, andb_true_r.
        apply Ascii.eqb_eq. congruence.
Qed.

Lemma like_plain_prefix (pattern s : str) :
  plain pattern ->
  like (pattern ++ [percent]) s = true -> prefix_ci pattern s.
Proof.
  unfold prefix_ci. intros Hplain. revert s.
  induction Hplain as [|c pattern [Hp Hu] _ IH]; intros s.
  - intros _. by exists (lower s).
  - rewrite <- app_comm_cons.
    rewrite like_other by (by apply Ascii.eqb_neq).
    destruct s as [|d s]; [done|]. intros H.
    apply andb_true_iff in H as [Hcd H]. apply Ascii.eqb_eq in Hcd.
    destruct (IH s H) as [k Hk]. exists k. unfold lower in *.
    cbn [fmap list_fmap app]. by rewrite Hcd, Hk.
Qed.

Lemma contains_prefix_split (pat s : str) :
  contains pat s = true <-> exists t s', s = t ++ s' /\ pat `prefix_of` s'.
Proof.
  rewrite contains_spec. split.
  - intros (pre & post & ->). exists pre, (pat ++ post). split; [done|].
    by exists post.
  - intros (t & s' & -> & [k ->]). by exists t, k.
Qed.

Lemma like_search_ci (q s : str) :
  contains (lower q) (lower s) = true -> like (search_pattern q) s = true.
Proof.
  intros H. apply contains_prefix_split in H as (t & s' & Hs & Hpre).
  unfold lower in Hs.
  apply fmap_app_inv in Hs as (t0 & s0 & -> & -> & ->).
  by apply like_percent_skip, like_prefix_ci.
Qed.

Lemma like_search_plain (q s : str) :
  plain q ->
  like (search_pattern q) s = true -> contains (lower q) (lower s) = true.
Proof.
  intros Hplain H. apply like_percent_inv in H as (t & s' & -> & H).
  apply like_plain_prefix in H; [|done].
  apply contains_prefix_split. exists (lower t), (lower s').
  split; [by apply fmap_app|done].
Qed.

(** X3. The invalidation of a scan ignores letter case: every record whose
    path the directory prefixes up to case is deleted, whatever the
    directory. When the directory holds neither [%] nor [_], these are the
    only records deleted, and the others stay in their order. *)
Theorem clean_previous_data_exact (directory : str) (t : Table) :
  Forall (fun r => ~ prefix_ci directory (file_path r))
         (rows (clean_previous_data directory t)) /\
  (plain directory ->
   rows (clean_previous_data directory t)
   = filter (fun r => ~ prefix_ci directory (file_path r)) (rows t)).
Proof.
  unfold clean_previous_data, delete_like. cbn [rows]. split.
  - apply Forall_forall. intros r Hr Hpre.
    apply list_elem_of_filter in Hr as [Hr _].
    by rewrite like_prefix_ci in Hr.
  - intros Hplain. apply list_filter_iff. intros r. split.
    + intros Hr Hpre. by rewrite like_prefix_ci in Hr.
    + intros Hr. destruct (like _ _) eqn:E; [|done].
      by apply like_plain_prefix in E.
Qed.

Lemma clean_previous_data_exact_witness :
  plain (L "./Proj") /\
  rows (clean_previous_data (L "./Proj")
          {| rows := [other_row;
                      {| id := 2; file_path := L "./proj/ci.yml";
                         content := []; risks := L "[]"; analysis := [] |}];
             last_id := 2 |})
  = [other_row].
Proof.
  assert (plain (L "./Proj")) as H by (repeat constructor; discriminate).
  split; [exact H|].
  rewrite (proj2 (clean_previous_data_exact (L "./Proj") _) H).
  vm_compute. reflexivity.
Defined.

(** X4. The browser's search selects a record as soon as the query occurs,
    up to letter case, in its path or in its risks text; an empty query
    selects every record. When the query holds neither [%] nor [_], no
    other record is selected. *)
Theorem where_clause_substring (search_query : str) (r : ScanRecord) :
  (contains (lower search_query) (lower (file_path r)) = true \/
   contains (lower search_query) (lower (risks r)) = true ->
   where_clause search_query r = true) /\
  (search_query = [] -> where_clause search_query r = true) /\
  (plain search_query ->
   where_clause search_query r = true ->
   contains (lower search_query) (lower (file_path r)) = true \/
   contains (lower search_query) (lower (risks r)) = true).
Proof.
  unfold where_clause. split; [|split].
  - intros [H|H]; apply like_search_ci in H; rewrite H;
      [done|by rewrite orb_true_r].
  - intros ->. rewrite (like_search_ci [] (file_path r)); [done|].
    by destruct (lower (file_path r)).
  - intros Hplain H. apply orb_true_iff in H as [H|H];
      apply like_search_plain in H; auto.
Qed.

Lemma where_clause_substring_witness :
  plain (L "HIGH") /\
  where_clause (L "HIGH") other_row = true /\
  contains (L "high") (lower (risks other_row)) = true.
Proof.
  assert (plain (L "HIGH")) as H by (repeat constructor; discriminate).
  assert (where_clause (L "HIGH") other_row = true) as Hw by reflexivity.
  split; [exact H|]. split; [exact Hw|].
  destruct (proj2 (proj2 (where_clause_substring (L "HIGH") other_row)) H Hw)
    as [Hp|Hr]; [|exact Hr].
  exfalso. revert Hp. vm_compute. discriminate.
Defined.

End LikeFacts.

(** ** Reading the table back *)

Section Reload.
Import Str Analysis Eff Completion PyRepr Database Orchestrator Loading
       ScanFacts.

Lemma load_rows_app (rs1 rs2 : list ScanRecord) :
  load_rows (rs1 ++ rs2) =
  entries1 ← load_rows rs1; entries2 ← load_rows rs2;
  Some (entries1 ++ entries2).
Proof.
  induction rs1 as [|r rs1 IH]; cbn [app load_rows].
  - cbn [mbind option_bind]. by destruct (load_rows rs2).
  - destruct (eval_list (risks r)) as [ds|]; [|done].
    cbn [mbind option_bind]. rewrite IH.
    destruct (load_rows rs1) as [e1|]; [|done]. cbn [mbind option_bind].
    by destruct (load_rows rs2).
Qed.

(** X5. What [store_in_database] writes, [load_scan_results_from_db] reads
    back: whatever characters the names of the findings hold, the entry
    loaded for the new row has the path, the analysis and the findings that
    were stored, and the entries of the earlier rows are unchanged. *)
Theorem load_after_store (t : Table) (path content analysis : str)
        (fs : list Finding) (loaded : list Loaded) :
  load_scan_results_from_db t = Some loaded ->
  load_scan_results_from_db (store_in_database path content fs analysis t)
  = Some (loaded ++ [{| l_file_path := path;
                        l_risks := finding_dict <$> fs;
                        l_analysis := analysis |}]).
Proof.
  unfold load_scan_results_from_db, store_in_database. cbn [rows].
  intros H. rewrite load_rows_app, H. cbn [mbind option_bind load_rows].
  cbn [risks file_path Database.analysis]. unfold str_risks.
  by rewrite eval_str_list.
Qed.

Lemma load_after_store_witness :
  load_scan_results_from_db empty_table = Some [] /\
  load_scan_results_from_db
    (store_in_database (L "a.yml") (L "x") [awkward_finding] (L "text")
                       empty_table)
  = Some [{| l_file_path := L "a.yml";
             l_risks := [finding_dict awkward_finding];
             l_analysis := L "text" |}].
Proof.
  split; [reflexivity|].
  exact (load_after_store empty_table (L "a.yml") (L "x") (L "text")
           [awkward_finding] [] eq_refl).
Defined.

(** What an iteration on a file read and analysed successfully does to the
    list of results. *)
Lemma scan_file_results model_type (st : ScanState) (f : FileObs)
      (content analysis : str) :
  analysed model_type f = Some (content, analysis) ->
  counts_ok (risk_count st) ->
  results (scan_file model_type st f) =
  if f_add_ok f
  then results st ++
       [{| r_file_path := f_path f;
           r_risks := detect_owasp_risks analysis content;
           r_analysis := analysis |}]
  else results st.
Proof.
  intros H Hok. revert H.
  unfold analysed, analysis_of, scan_file. intros H.
  destruct (f_content f) as [[|c content']|]; [done| |done].
  rewrite (analyze_log model_type f (log st)).
  destruct ((analyze model_type f []).1) as [[analysis'|]|e]; [|done..].
  destruct (skipped analysis') eqn:Hskip; [done|].
  injection H as <- <-.
  destruct (count_risks_ok (detect_owasp_risks analysis' (c :: content'))
              (risk_count st) Hok (detect_valid_severity _ _))
    as (rc' & -> & _).
  unfold store_in_vector_db. by destruct (f_add_ok f).
Qed.

Lemma scan_fold_results model_type (files : list FileObs) (st : ScanState) :
  counts_ok (risk_count st) ->
  exists written new_results,
    rows (db (foldl (scan_file model_type) st files))
      = rows (db st) ++ written /\
    results (foldl (scan_file model_type) st files)
      = results st ++ new_results /\
    (exists loaded, load_rows written = Some loaded /\
                    (loaded_of <$> new_results) `sublist_of` loaded /\
                    (Forall (fun f => f_add_ok f = true) files ->
                     loaded = loaded_of <$> new_results)).
Proof.
  revert st. induction files as [|f files IH]; intros st Hok.
  - exists [], []. cbn [foldl]. rewrite !app_nil_r.
    split; [done|]. split; [done|]. by exists [].
  - cbn [foldl].
    destruct (analysed model_type f) as [[content analysis]|] eqn:Han.
    + pose proof (scan_file_results model_type st f content analysis Han Hok)
        as Hres.
      destruct (scan_file_analysed model_type st f content analysis Han Hok)
        as (rc' & log' & results' & Hc & Hok' & Hst).
      assert (results' = results (scan_file model_type st f)) as Hr'
        by (by rewrite Hst).
      rewrite Hst. rewrite Hst in Hres. cbn [results] in Hres.
      match goal with |- context [foldl _ ?s files] => set (st1 := s) end.
      destruct (IH st1 Hok')
        as (written & new_results & Hrows & Hresults
            & loaded & Hload & Hsub & Heq).
      set (r := {| id := S (last_id (db st)); file_path := f_path f;
                   content := content;
                   risks := str_risks (detect_owasp_risks analysis content);
                   analysis := analysis |}).
      set (res := {| r_file_path := f_path f;
                     r_risks := detect_owasp_risks analysis content;
                     r_analysis := analysis |}).
      exists (r :: written),
        ((if f_add_ok f then [res] else []) ++ new_results).
      split; [|split].
      * rewrite Hrows. unfold st1. cbn [db store_in_database rows].
        by rewrite <- app_assoc.
      * rewrite Hresults. unfold st1. cbn [results]. rewrite Hres.
        destruct (f_add_ok f); [by rewrite <- app_assoc|done].
      * exists (loaded_of res :: loaded). split; [|split].
        -- cbn [load_rows]. unfold r.
           cbn [risks file_path Database.analysis]. unfold str_risks.
           rewrite eval_str_list. cbn [mbind option_bind]. rewrite Hload.
           reflexivity.
        -- destruct (f_add_ok f); cbn [app fmap list_fmap].
           ++ by apply sublist_skip.
           ++ by apply sublist_cons.
        -- intros Hall. apply Forall_cons in Hall as [-> Hall].
           cbn [app fmap list_fmap]. by rewrite (Heq Hall).
    + destruct (scan_file_not_analysed model_type st f Han) as [log' ->].
      destruct (IH (with_log st log') Hok)
        as (written & new_results & Hrows & Hresults
            & loaded & Hload & Hsub & Heq).
      exists written, new_results. split; [done|]. split; [done|].
      exists loaded. split; [done|]. split; [done|].
      intros Hall. apply Forall_cons in Hall as [_ Hall]. by apply Heq.
Qed.



End Reload.

(** ** What the risk count counts *)

Section Counting.
Import Str Analysis Eff Completion PyRepr Database Orchestrator ScanFacts.

Lemma zero_counts_default (sev : str) : default 0 (zero_counts !! sev) = 0.
Proof.
  unfold zero_counts.
  destruct (decide (L "Low" = sev)) as [<-|H1];
    [by rewrite lookup_insert_eq|rewrite lookup_insert_ne by done].
  destruct (decide (L "Medium" = sev)) as [<-|H2];
    [by rewrite lookup_insert_eq|rewrite lookup_insert_ne by done].
  destruct (decide (L "High" = sev)) as [<-|H3];
    [by rewrite lookup_insert_eq|rewrite lookup_insert_ne by done].
  by rewrite lookup_empty.
Qed.

(** One increment adds one to the count of its name and severity, and
    changes no other count. *)
Lemma count_of_count_one (name sev : str) (rc : RiskCount) (name' sev' : str) :
  counts_ok rc -> valid_severity sev ->
  count_of (count_one name sev rc).1 name' sev' =
  count_of rc name' sev' + hit_value name sev name' sev'.
Proof.
  intros Hok Hsev. unfold count_one, hit_value.
  destruct (rc !! name) as [counts|] eqn:Hname.
  - rewrite Hname.
    destruct (counts_ok_lookup rc name counts sev Hok Hname Hsev) as [k Hk].
    rewrite Hk. cbn [fst]. unfold count_of.
    destruct (decide (name = name')) as [<-|Hne].
    + rewrite lookup_insert_eq, Hname.
      destruct (decide (sev = sev')) as [<-|Hne'].
      * rewrite lookup_insert_eq, Hk, decide_True by done. reflexivity.
      * rewrite lookup_insert_ne, decide_False by tauto. lia.
    + rewrite lookup_insert_ne, decide_False by tauto. lia.
  - rewrite lookup_insert_eq.
    assert (zero_counts !! sev = Some 0) as Hz
      by (by destruct Hsev as [->|[->| ->]]).
    rewrite Hz. cbn [fst]. unfold count_of.
    destruct (decide (name = name')) as [<-|Hne].
    + rewrite lookup_insert_eq, Hname.
      destruct (decide (sev = sev')) as [<-|Hne'].
      * rewrite lookup_insert_eq, decide_True by done. reflexivity.
      * rewrite lookup_insert_ne, decide_False by tauto.
        rewrite zero_counts_default. lia.
    + rewrite !lookup_insert_ne, decide_False by tauto. lia.
Qed.

Lemma occurrences_cons (name sev : str) (f : Finding) (fs : list Finding) :
  occurrences name sev (f :: fs) =
  hit_value (risk_name f) (severity f) name sev + occurrences name sev fs.
Proof.
  unfold occurrences, hit_value. rewrite filter_cons.
  destruct (decide (risk_name f = name /\ severity f = sev));
    cbn [length]; lia.
Qed.

Lemma occurrences_app (name sev : str) (fs1 fs2 : list Finding) :
  occurrences name sev (fs1 ++ fs2) =
  occurrences name sev fs1 + occurrences name sev fs2.
Proof. unfold occurrences. rewrite filter_app, length_app. lia. Qed.

Lemma count_of_count_risks (fs : list Finding) (rc : RiskCount)
      (name sev : str) :
  counts_ok rc -> Forall (fun f => valid_severity (severity f)) fs ->
  count_of (count_risks fs rc).1 name sev =
  count_of rc name sev + occurrences name sev fs.
Proof.
  intros Hok Hfs. revert rc Hok.
  induction Hfs as [|f fs Hf Hfs IH]; intros rc Hok.
  - cbn. unfold occurrences. cbn. lia.
  - cbn [count_risks].
    pose proof (count_of_count_one (risk_name f) (severity f) rc name sev
                  Hok Hf) as Hone.
    destruct (count_one_ok (risk_name f) (severity f) rc Hok Hf)
      as (rc1 & Hrc1 & Hok1).
    rewrite Hrc1 in Hone |- *. cbn [fst] in Hone.
    rewrite IH by done. rewrite Hone, occurrences_cons. lia.
Qed.

Lemma count_of_scan_fold model_type (files : list FileObs) (st : ScanState)
      (name sev : str) :
  counts_ok (risk_count st) ->
  count_of (risk_count (foldl (scan_file model_type) st files)) name sev =
  count_of (risk_count st) name sev
  + occurrences name sev (scan_findings model_type files).
Proof.
  revert st. induction files as [|f files IH]; intros st Hok.
  - cbn. unfold occurrences. cbn. lia.
  - cbn [foldl]. unfold scan_findings. cbn [fmap list_fmap concat].
    fold (scan_findings model_type files). rewrite occurrences_app.
    unfold findings_of.
    destruct (analysed model_type f) as [[content analysis]|] eqn:Han.
    + destruct (scan_file_analysed model_type st f content analysis Han Hok)
        as (rc' & log' & results' & Hc & Hok' & ->).
      rewrite IH by done. cbn [risk_count].
      pose proof (count_of_count_risks (detect_owasp_risks analysis content)
                    (risk_count st) name sev Hok
                    (detect_valid_severity _ _)) as H.
      rewrite Hc in H. cbn [fst] in H. lia.
    + destruct (scan_file_not_analysed model_type st f Han) as [log' ->].
      rewrite IH by done. cbn [risk_count with_log].
      unfold occurrences at 2. cbn. lia.
Qed.

(** X7. The number a scan returns in [risk_count] for a name and a severity
    is the number of findings with that name and that severity that the
    extractor returns over the files read and analysed successfully, each
    occurrence counted; a name or a severity absent from the map counts for
    zero. *)
Theorem risk_count_occurrences (directory : str) (model_type : ModelType)
        (files : list FileObs) (db0 : Table) (collection0 : Collection)
        (log0 : list Event) (name sev : str) :
  count_of (risk_count (scan_directory directory model_type files db0
                                       collection0 log0)) name sev
  = occurrences name sev (scan_findings model_type files).
Proof.
  rewrite scan_directory_foldl.
  rewrite count_of_scan_fold by apply counts_ok_empty.
  cbn [risk_count]. unfold count_of at 1. rewrite lookup_empty. lia.
Qed.

End Counting.

(** ** Files that are skipped *)

Section Skipping.
Import Str Analysis Eff Completion PyRepr Database Orchestrator.

Lemma skipped_failure (prefix e : str) :
  contains (L "Analysis failed") prefix = true ->
  skipped (prefix ++ e) = true.
Proof.
  intros H. unfold skipped. by rewrite (contains_app_l _ _ _ H).
Qed.

(** X8. A file that cannot be read, or whose content is empty, is passed
    over without any backend call. A file whose analysis fails for every
    attempt the adapter makes (the one call of the local model, or each of
    the calls of the hosted model) leaves no row, no document, no result and
    no count: only the calls, and the 60-second pauses between the calls of
    the hosted model, are added to the log, without the pacing pause that
    follows a stored file. *)
Theorem failed_file_leaves_no_trace (model_type : ModelType)
        (st : ScanState) (f : FileObs) :
  (f_content f = None \/ f_content f = Some [] ->
   scan_file model_type st f = st) /\
  (forall c content e,
      f_content f = Some (c :: content) ->
      model_type = OLLAMA -> f_ollama f = Exn e ->
      scan_file model_type st f = with_log st (log st ++ [Call 0])) /\
  (forall c content,
      f_content f = Some (c :: content) ->
      model_type = Gemini ->
      (forall k, (k < max_retries)%nat ->
         exists e, attempt_result
                     (L "No vulnerabilities detected in the provided code.")
                     (f_gemini f) k = Exn e) ->
      exists n, (1 <= n <= max_retries)%nat /\
        scan_file model_type st f
        = with_log st (log st ++ retry_trace n)).
Proof.
  split; [|split].
  - unfold scan_file. by intros [-> | ->].
  - intros c content e Hc -> He. unfold scan_file. rewrite Hc.
    unfold analyze, analyze_with_ollama, try_except, bind, emit, lift, ret.
    rewrite He. by rewrite skipped_failure.
  - intros c content Hc -> Hfail. unfold scan_file. rewrite Hc.
    unfold analyze, analyze_with_gemini.
    destruct (retry_loop_outcome
                (L "No vulnerabilities detected in the provided code.")
                (L "Analysis failed due to quota limit: ")
                (L "Analysis failed: ") (f_gemini f) (log st))
      as (n & s & Hn & -> & _ & Hlast).
    exists n. split; [done|].
    destruct (Hfail (n - 1)%nat ltac:(lia)) as [e He].
    rewrite He in Hlast.
    assert (skipped s = true) as ->; [|done].
    destruct (quota_error e).
    + destruct Hlast as [_ ->]. by apply skipped_failure.
    + rewrite Hlast. by apply skipped_failure.
Qed.

Lemma failed_file_leaves_no_trace_witness :
  let f := {| f_path := L "proj/ci.yml"; f_content := Some (L "stage build");
              f_ollama := Exn (L "connection refused");
              f_gemini := always_quota; f_add_ok := true |} in
  let st := {| db := empty_table; collection := []; results := [];
               risk_count := ∅; log := [] |} in
  scan_file OLLAMA st f = with_log st [Call 0] /\
  exists n, (1 <= n <= max_retries)%nat /\
            scan_file Gemini st f = with_log st ([] ++ retry_trace n).
Proof.
  intros f st.
  destruct (failed_file_leaves_no_trace OLLAMA st f) as (_ & Ho & _).
  destruct (failed_file_leaves_no_trace Gemini st f) as (_ & _ & Hg).
  split.
  - exact (Ho "s"%char (L "tage build") (L "connection refused")
              eq_refl eq_refl eq_refl).
  - apply (Hg "s"%char (L "tage build") eq_refl eq_refl).
    intros k _. by exists (L "429 Quota exceeded").
Defined.

End Skipping.

(** ** Answering a question *)

Section Rag.
Import Str Re Eff Completion Database Ui.

(** X9. [generate_rag_response] always returns a string: it never raises
    and never returns [None], whatever the context, the backend chosen and
    its behaviour. With no usable context it answers at once, without any
    backend call; with the local model it makes one call and turns an
    exception into a failure string; with the hosted model it makes between
    one and three calls. *)
Theorem rag_response_total (context : Context) (model_type : ModelType)
        (ollama : Exc str) (backend : Backend) (log : list Event) :
  exists s log',
    generate_rag_response context model_type ollama backend log
    = (Ok (Some s), log') /\
    (no_context context = true ->
     s = L "No related files found in the scan results." /\ log' = log) /\
    (no_context context = false -> model_type = OLLAMA ->
     log' = log ++ [Call 0] /\
     s = match ollama with
         | Ok t => t
         | Exn e => L "Response generation failed: " ++ e
         end) /\
    (no_context context = false -> model_type = Gemini ->
     exists n, (1 <= n <= max_retries)%nat /\ log' = log ++ retry_trace n).
Proof.
  unfold generate_rag_response, try_except.
  destruct (no_context context) eqn:Hctx.
  - eexists _, _. split; [reflexivity|]. repeat split; done.
  - destruct model_type.
    + unfold bind, emit, lift, ret.
      destruct ollama as [t|e]; eexists _, _; (split; [reflexivity|]);
        repeat split; try done.
    + destruct (retry_loop_outcome
        (L "No response generated by Gemini. Please try again later.")
        (L "Response generation failed due to quota limit: ")
        (L "Response generation failed: ") backend log)
        as (n & s & Hn & -> & _).
      exists s, (log ++ retry_trace n). split; [reflexivity|].
      repeat split; try done. intros _ _. by exists n.
Qed.

Lemma rag_response_total_witness :
  no_context (AList []) = true /\
  generate_rag_response (AList []) Gemini (Exn []) broken [Call 7]
  = (Ok (Some (L "No related files found in the scan results.")), [Call 7]).
Proof.
  split; [reflexivity|].
  destruct (rag_response_total (AList []) Gemini (Exn []) broken [Call 7])
    as (s & log' & Hres & Hno & _).
  destruct (Hno eq_refl) as [-> ->]. exact Hres.
Defined.

Lemma rag_response_total_aux (model_type : ModelType) (ollama : Exc str)
      (backend : Backend) (log : list Event) :
  exists s calls,
    generate_rag_response
      (AList [ItemStr (L "No related files found.")]) model_type ollama
      backend log
    = (Ok (Some s), log ++ Call 0 :: calls).
Proof.
  unfold generate_rag_response, try_except. cbn [no_context].
  destruct model_type.
  - unfold bind, emit, lift, ret.
    destruct ollama as [t|e]; by eexists _, [].
  - destruct (retry_loop_outcome
      (L "No response generated by Gemini. Please try again later.")
      (L "Response generation failed due to quota limit: ")
      (L "Response generation failed: ") backend log)
      as (n & s & Hn & -> & _).
    exists s. unfold retry_trace. by eexists.
Qed.

(** X10. The guard of [generate_rag_response] against an unusable context
    does not recognise the sentence [query_vectors] returns when nothing
    was found: it holds for a result of [query_vectors] only when the
    documents retrieved are the one text [no related files found]. So when
    the vector query fails, [show_rag_qa] still calls the backend for any
    non-empty question. *)
Theorem sentinel_reaches_backend (question : str) (query : Exc QueryResult)
        (model_type : ModelType) (ollama : Exc str) (backend : Backend)
        (log : list Event) :
  (no_context (to_context (query_vectors question query)) = true <->
   query_vectors question query = Docs [L "no related files found"]) /\
  (question <> [] ->
   query_vectors question query = NoRelated ->
   exists s calls,
     show_rag_qa question query model_type ollama backend log
     = (Ok (Some s), log ++ Call 0 :: calls)).
Proof.
  split.
  - destruct (query_vectors question query) as [docs|]; cbn.
    + destruct docs as [|d [|d' docs]]; [done| |done].
      rewrite bool_decide_eq_true. split; [by intros ->|by intros [= ->]].
    + done.
  - intros Hq Hno. unfold show_rag_qa.
    destruct question as [|c question]; [done|]. rewrite Hno.
    destruct (rag_response_total_aux model_type ollama backend log)
      as (s & calls & H). by exists s, calls.
Qed.

Lemma sentinel_reaches_backend_witness :
  L "who" <> [] /\
  query_vectors (L "who") (Exn (L "down")) = NoRelated /\
  exists s calls,
    show_rag_qa (L "who") (Exn (L "down")) OLLAMA (Ok (L "nobody")) broken []
    = (Ok (Some s), [] ++ Call 0 :: calls).
Proof.
  split; [discriminate|]. split; [reflexivity|].
  apply (proj2 (sentinel_reaches_backend (L "who") (Exn (L "down")) OLLAMA
                  (Ok (L "nobody")) broken []));
    [discriminate|reflexivity].
Defined.

End Rag.

(** ** Retrieval without an exact match *)

Section Retrieval.
Import Str Re Eff Database.

Lemma filter_docs_sublist (target : option str)
      (candidates : list (str * Metadata)) (acc out : list str) :
  filter_docs target candidates acc = Ok out ->
  out `sublist_of` acc ++ candidates.*1.
Proof.
  revert acc. induction candidates as [|[doc meta] rest IH]; intros acc.
  - cbn. intros [= ->]. by rewrite app_nil_r.
  - cbn [filter_docs fmap list_fmap fst].
    destruct (stored_filename_of meta) as [name|e]; [|done].
    assert (Hskip : filter_docs target rest acc = Ok out ->
                    out `sublist_of` acc ++ doc :: rest.*1).
    { intros H%IH. etrans; [exact H|].
      apply sublist_app; [done|]. by apply sublist_cons. }
    destruct target as [[|c t]|]; [done| |done].
    cbv zeta. case_bool_decide.
    + intros [= <-]. apply sublist_inserts_l. apply sublist_skip.
      apply sublist_nil_l.
    + destruct (contains (c :: t) name || contains name (c :: t)); [|done].
      intros Hrest%IH. by rewrite <- app_assoc in Hrest.
Qed.

Lemma zip_fst_sublist {A B} (l : list A) (k : list B) :
  (zip l k).*1 `sublist_of` l.
Proof.
  revert k. induction l as [|a l IH]; intros [|b k]; cbn; try done.
  - apply sublist_nil_l.
  - by apply sublist_skip.
Qed.


(** X11. Whatever the question, [query_vectors] only selects among the
    documents the nearest-neighbour query returned: the documents it gives
    back are a subsequence, in rank order, of the first list of retrieved
    documents, and they are not empty unless that list is. *)
Theorem query_vectors_selects (question : str) (results : QueryResult)
        (ds : list str) :
  query_vectors question (Ok results) = Docs ds ->
  exists docs0,
    head (documents results) = Some docs0 /\
    ds `sublist_of` docs0 /\
    (docs0 <> [] -> ds <> []).
Proof.
  unfold query_vectors.
  destruct (documents results) as [|docs0 rd]; [done|].
  destruct (metadatas results) as [|metas0 rm]; [done|].
  destruct (filter_docs _ _ _) as [out|e] eqn:Hf; [|done].
  apply filter_docs_sublist in Hf. cbn in Hf.
  assert (Hsub : out `sublist_of` docs0)
    by (etrans; [exact Hf|apply zip_fst_sublist]).
  intros H. exists docs0. split; [done|].
  destruct out as [|d out]; injection H as <-; done.
Qed.

Lemma query_vectors_selects_witness :
  query_vectors (L "deploy.yml risks")
    (Ok {| documents := [[L "a"; L "b"]];
           metadatas := [[ {[ L "filename" := VStr (L "x.py") ]};
                           {[ L "filename" := VStr (L "Deploy.YML") ]} ]] |})
  = Docs [L "b"] /\
  exists docs0,
    head [[L "a"; L "b"]] = Some docs0 /\
    [L "b"] `sublist_of` docs0 /\
    (docs0 <> [] -> [L "b"] <> []).
Proof.
  assert (H : query_vectors (L "deploy.yml risks")
    (Ok {| documents := [[L "a"; L "b"]];
           metadatas := [[ {[ L "filename" := VStr (L "x.py") ]};
                           {[ L "filename" := VStr (L "Deploy.YML") ]} ]] |})
  = Docs [L "b"]) by (vm_compute; reflexivity).
  split; [exact H|]. exact (query_vectors_selects _ _ _ H).
Defined.




End Retrieval.

(** ** The vector store *)

Section VectorStore.
Import Str Database.

Lemma nat_str_inj (i j : nat) : nat_str i = nat_str j -> i = j.
Proof.
  unfold nat_str. intros H.
  apply (f_equal string_of_list_ascii) in H.
  rewrite !string_of_list_ascii_of_string in H.
  apply (f_equal NilEmpty.uint_of_string) in H.
  rewrite !NilEmpty.usu in H. injection H as H.
  by apply Unsigned.to_uint_inj.
Qed.

Lemma batch_ids (path content analysis : str)
      (detect : str -> str -> list Analysis.Finding) :
  v_id <$> batch path content analysis detect =
  ((fun i => normalize path ++ L "_chunk_" ++ nat_str i)
     <$> seq 0 (length (chunk_text_default content)))
  ++ [normalize path].
Proof.
  unfold batch. cbv zeta. rewrite fmap_app, fmap_imap. cbn [fmap list_fmap].
  f_equal. apply (imap_seq_0 (chunk_text_default content)
    (fun i => normalize path ++ L "_chunk_" ++ nat_str i)).
Qed.

Lemma batch_under (path content analysis : str)
      (detect : str -> str -> list Analysis.Finding) (d : VectorDoc) :
  d ∈ batch path content analysis detect ->
  starts_with (normalize path) (v_id d) = true.
Proof.
  intros Hd. apply (list_elem_of_fmap_2 v_id) in Hd.
  rewrite batch_ids in Hd. apply elem_of_app in Hd as [Hd|Hd].
  - apply list_elem_of_fmap in Hd as (i & -> & _). apply starts_with_app.
  - apply list_elem_of_singleton in Hd as ->.
    rewrite <- (app_nil_r (normalize path)) at 2. apply starts_with_app.
Qed.

Lemma batch_ids_nodup (path content analysis : str)
      (detect : str -> str -> list Analysis.Finding) :
  NoDup (v_id <$> batch path content analysis detect).
Proof.
  rewrite batch_ids. apply NoDup_app. split; [|split].
  - apply NoDup_fmap_2; [|apply NoDup_seq].
    intros i j H. apply app_inv_head in H. apply app_inv_head in H.
    by apply nat_str_inj.
  - intros id Hid Hin. apply list_elem_of_singleton in Hin as ->.
    apply list_elem_of_fmap in Hid as (i & Hid & _).
    rewrite <- (app_nil_r (normalize path)) in Hid at 1.
    by apply app_inv_head in Hid.
  - apply NoDup_singleton.
Qed.

Lemma filter_under_batch (p path content analysis : str)
      (detect : str -> str -> list Analysis.Finding) :
  starts_with p (normalize path) = true ->
  filter (fun d => starts_with p (v_id d) = false)
         (batch path content analysis detect) = [].
Proof.
  intros Hp. apply filter_none, Forall_forall. intros d Hd%batch_under.
  apply starts_with_spec in Hp as [q Hq].
  apply starts_with_spec in Hd as [r Hr].
  rewrite Hr, Hq, <- app_assoc, starts_with_app. done.
Qed.

(** X13. What [store_in_vector_db] leaves in the collection. The documents
    whose id does not start with the normalized path are those that were
    there, in their order; the documents whose id starts with it are the
    batch of the file when the addition succeeds, and none when it fails:
    the previous documents of the file are deleted before the addition is
    attempted. The ids of a batch are pairwise distinct, and a collection
    whose ids are pairwise distinct stays so. *)
Theorem vector_store_partition (path content analysis : str)
        (detect : str -> str -> list Analysis.Finding) (add_ok : bool)
        (collection : Collection) :
  let after := (store_in_vector_db path content analysis detect add_ok
                                   collection).1 in
  filter (fun d => starts_with (normalize path) (v_id d) = false) after
  = filter (fun d => starts_with (normalize path) (v_id d) = false)
           collection /\
  filter (fun d => starts_with (normalize path) (v_id d) = true) after
  = (if add_ok then batch path content analysis detect else []) /\
  (NoDup (v_id <$> collection) -> NoDup (v_id <$> after)).
Proof.
  cbv zeta. unfold store_in_vector_db. cbv zeta.
  set (out := fun d : VectorDoc =>
                starts_with (normalize path) (v_id d) = false).
  set (under := fun d : VectorDoc =>
                  starts_with (normalize path) (v_id d) = true).
  assert (Hkept_out : filter out (filter out collection)
                      = filter out collection)
    by (by apply list_filter_filter_l).
  assert (Hkept_under : filter under (filter out collection) = []).
  { apply filter_none, Forall_forall. intros d Hd%list_elem_of_filter.
    unfold under, out in *. destruct Hd as [-> _]. done. }
  assert (Hkept_nodup : NoDup (v_id <$> collection) ->
                        NoDup (v_id <$> filter out collection)).
  { intros H. eapply sublist_NoDup; [exact H|].
    apply fmap_sublist, sublist_filter. }
  destruct add_ok; cbn [fst]; [|done].
  rewrite !filter_app, Hkept_out, Hkept_under.
  rewrite (filter_under_batch (normalize path)), app_nil_r
    by (rewrite <- (app_nil_r (normalize path)) at 2; apply starts_with_app).
  split; [done|]. split.
  - cbn [app]. apply filter_all, Forall_forall. intros d Hd.
    by apply batch_under in Hd.
  - intros H. rewrite fmap_app. apply NoDup_app.
    split; [by apply Hkept_nodup|]. split; [|apply batch_ids_nodup].
    intros id Hid Hin.
    apply list_elem_of_fmap in Hid as (d & -> & Hd%list_elem_of_filter).
    apply list_elem_of_fmap in Hin as (d' & Hid & Hd'%batch_under).
    destruct Hd as [Hd _]. unfold out in Hd. rewrite Hid in Hd.
    rewrite Hd in Hd'. done.
Qed.

Lemma vector_store_partition_witness :
  NoDup (v_id <$> ([] : Collection)) /\
  NoDup (v_id <$> (store_in_vector_db (L "ci\deploy.yml") (L "run: make")
                     (L "fine") Analysis.detect_owasp_risks true []).1).
Proof.
  split; [apply NoDup_nil_2|].
  apply (vector_store_partition (L "ci\deploy.yml") (L "run: make")
           (L "fine") Analysis.detect_owasp_risks true []).
  apply NoDup_nil_2.
Defined.

(** X14. Storing a file deletes more than its own documents: when the
    normalized path of [path] is a prefix of the normalized path of
    [other], as for [ci/deploy] and [ci/deploy.yml] or for two spellings of
    one path with either separator, storing [path] after [other] leaves
    the collection as if [other] had never been stored, whether or not
    either addition succeeds. *)
Theorem vector_store_overwrites (path content analysis : str)
        (other content' analysis' : str)
        (detect : str -> str -> list Analysis.Finding) (add_ok add_ok' : bool)
        (collection : Collection) :
  starts_with (normalize path) (normalize other) = true ->
  store_in_vector_db path content analysis detect add_ok
    (store_in_vector_db other content' analysis' detect add_ok'
                        collection).1
  = store_in_vector_db path content analysis detect add_ok collection.
Proof.
  intros Hp. unfold store_in_vector_db. cbv zeta.
  assert (Hkept :
    filter (fun d => starts_with (normalize path) (v_id d) = false)
      (filter (fun d => starts_with (normalize other) (v_id d) = false)
              collection)
    = filter (fun d => starts_with (normalize path) (v_id d) = false)
             collection).
  { apply list_filter_filter_l. intros d Hd.
    destruct (starts_with (normalize other) (v_id d)) eqn:Ho; [|done].
    apply starts_with_spec in Hp as [q Hq].
    apply starts_with_spec in Ho as [r Hr].
    rewrite Hr, Hq, <- app_assoc, starts_with_app in Hd. done. }
  destruct add_ok'; cbn [fst].
  - rewrite filter_app, Hkept, (filter_under_batch _ _ _ _ _ Hp), app_nil_r.
    done.
  - by rewrite Hkept.
Qed.

Lemma vector_store_overwrites_witness :
  starts_with (normalize (L "ci/deploy")) (normalize (L "ci\deploy.yml"))
  = true /\
  store_in_vector_db (L "ci/deploy") (L "a") (L "b")
    Analysis.detect_owasp_risks true
    (store_in_vector_db (L "ci\deploy.yml") (L "c") (L "d")
       Analysis.detect_owasp_risks true []).1
  = store_in_vector_db (L "ci/deploy") (L "a") (L "b")
      Analysis.detect_owasp_risks true [].
Proof.
  split; [reflexivity|]. apply vector_store_overwrites. reflexivity.
Defined.

End VectorStore.

(** ** Reading a file *)

Section FileLoading.
Import Str Eff Loader.







End FileLoading.

Section FileFallbacks.
Import Str Eff Completion Database Orchestrator Loader.


End FileFallbacks.

(** ** The dashboard *)

Section DashboardData.
Import Str Analysis Eff Completion PyRepr Database Orchestrator Dashboard.

Lemma dashboard_data_spec (rc : RiskCount) (name sev : str) (n : Z) :
  (name, sev, n) ∈ dashboard_data rc <->
  exists counts, rc !! name = Some counts /\ counts !! sev = Some n /\ 0 < n.
Proof.
  unfold dashboard_data. rewrite list_elem_of_In, in_flat_map. split.
  - intros ([name' counts] & Hin & H).
    apply list_elem_of_In, elem_of_map_to_list in Hin.
    apply in_flat_map in H as ([sev' n'] & Hin' & H).
    apply list_elem_of_In, elem_of_map_to_list in Hin'.
    destruct (0 <? n') eqn:Hpos; [|done].
    destruct H as [[= -> -> ->]|[]]. exists counts. repeat split; [done..|lia].
  - intros (counts & Hname & Hsev & Hpos). exists (name, counts).
    split; [by apply list_elem_of_In, elem_of_map_to_list|].
    apply in_flat_map. exists (sev, n).
    split; [by apply list_elem_of_In, elem_of_map_to_list|].
    assert ((0 <? n) = true) as -> by lia. by left.
Qed.

Lemma zero_counts_zero (sev : str) (n : Z) :
  zero_counts !! sev = Some n -> n = 0.
Proof.
  unfold zero_counts. intros H.
  repeat (apply lookup_insert_Some in H as [[_ <-]|[_ H]]; [done|]).
  by rewrite lookup_empty in H.
Qed.

Lemma counted_insert (rc : RiskCount) (name sev : str)
      (counts : gmap str Z) (n : Z) :
  counted rc -> 0 <= n ->
  (forall sev' m, counts !! sev' = Some m -> 0 <= m) ->
  counted (<[name := <[sev := n + 1]> counts]> rc).
Proof.
  intros Hrc Hn Hcounts name' counts' H.
  apply lookup_insert_Some in H as [[_ <-]|[_ H]]; [|by eapply Hrc].
  split.
  - intros sev' m Hm.
    apply lookup_insert_Some in Hm as [[_ <-]|[_ Hm]]; [lia|].
    by eapply Hcounts.
  - exists sev, (n + 1). rewrite lookup_insert_eq. split; [done|lia].
Qed.

Lemma count_one_counted (name sev : str) (rc rc' : RiskCount) :
  counted rc -> count_one name sev rc = (rc', false) -> counted rc'.
Proof.
  intros Hrc. unfold count_one.
  destruct (rc !! name) as [counts|] eqn:Hname.
  - rewrite Hname. destruct (counts !! sev) as [n|] eqn:Hsev; [|done].
    intros [= <-]. destruct (Hrc name counts Hname) as [Hnonneg _].
    apply counted_insert; [done|by eapply Hnonneg|done].
  - rewrite lookup_insert_eq.
    destruct (zero_counts !! sev) as [n|] eqn:Hsev; [|done].
    intros [= <-]. apply zero_counts_zero in Hsev as ->.
    rewrite insert_insert_eq.
    apply counted_insert; [done|lia|].
    intros sev' m Hm. apply zero_counts_zero in Hm. lia.
Qed.

Lemma count_risks_counted (fs : list Finding) (rc rc' : RiskCount) :
  counted rc -> count_risks fs rc = (rc', false) -> counted rc'.
Proof.
  revert rc. induction fs as [|f fs IH]; intros rc Hrc.
  - by intros [= <-].
  - cbn [count_risks].
    destruct (count_one (risk_name f) (severity f) rc) as [rc1 [|]] eqn:Hone;
      [done|].
    apply IH. by eapply count_one_counted.
Qed.

Lemma count_dicts_counted (ds : list Dict) (rc rc' : RiskCount) :
  counted rc -> count_dicts ds rc = Some rc' -> counted rc'.
Proof.
  revert rc. induction ds as [|d ds IH]; intros rc Hrc.
  - by intros [= <-].
  - cbn [count_dicts].
    destruct (dict_get (L "risk_name") d) as [name|]; [|done].
    destruct (dict_get (L "severity") d) as [sev|]; [|done]. cbn.
    destruct (count_one name sev rc) as [rc1 [|]] eqn:Hone; [done|].
    apply IH. by eapply count_one_counted.
Qed.

Lemma replay_rows_counted (rs : list ScanRecord) (rc rc' : RiskCount) :
  counted rc -> replay_rows rs rc = Some rc' -> counted rc'.
Proof.
  revert rc. induction rs as [|r rs IH]; intros rc Hrc.
  - by intros [= <-].
  - cbn [replay_rows].
    destruct (eval_list (risks r)) as [ds|]; [|done]. cbn.
    destruct (count_dicts ds rc) as [rc1|] eqn:Hds; [|done]. cbn.
    apply IH. by eapply count_dicts_counted.
Qed.

Lemma scan_fold_counted model_type (files : list FileObs) (st : ScanState) :
  counts_ok (risk_count st) -> counted (risk_count st) ->
  counted (risk_count (foldl (scan_file model_type) st files)).
Proof.
  revert st. induction files as [|f files IH]; intros st Hok Hrc; [done|].
  cbn [foldl].
  destruct (analysed model_type f) as [[content analysis]|] eqn:Han.
  - destruct (scan_file_analysed model_type st f content analysis Han Hok)
      as (rc' & log' & results' & Hc & Hok' & ->).
    apply IH; cbn [risk_count]; [done|]. by eapply count_risks_counted.
  - destruct (scan_file_not_analysed model_type st f Han) as [log' ->].
    by apply IH.
Qed.

Lemma counted_empty : counted ∅.
Proof. intros name counts H. by rewrite lookup_empty in H. Qed.

Lemma counted_dashboard (rc : RiskCount) :
  counted rc ->
  (forall name, is_Some (rc !! name) ->
     exists sev n, (name, sev, n) ∈ dashboard_data rc) /\
  (rc <> ∅ -> dashboard_data rc <> []).
Proof.
  intros Hrc.
  assert (Hrow : forall name, is_Some (rc !! name) ->
            exists sev n, (name, sev, n) ∈ dashboard_data rc).
  { intros name [counts Hname].
    destruct (Hrc name counts Hname) as [_ (sev & n & Hsev & Hpos)].
    exists sev, n. apply dashboard_data_spec. by exists counts. }
  split; [done|]. intros Hne Hnil.
  destruct (map_choose rc Hne) as (name & counts & Hname).
  destruct (Hrow name) as (sev & n & Hin); [done|].
  rewrite Hnil in Hin. by apply elem_of_nil in Hin.
Qed.

(** X17. The dashboard shows an entry exactly for the names and severities
    whose count is positive. For the counts a scan returns, and for the
    counts read back from the table, every risk name of the map has an
    entry; so the message that no risk was detected, which
    [show_risk_dashboard] gives for empty data, is never shown for a map
    that is not empty, the only ones [main] passes to it. *)
Theorem dashboard_shows_every_risk (directory : str) (model_type : ModelType)
        (files : list FileObs) (db0 : Table) (collection0 : Collection)
        (log0 : list Event) (rc : RiskCount) :
  rc = risk_count (scan_directory directory model_type files db0
                                  collection0 log0) \/
  load_risk_count_from_db db0 = Some rc ->
  (forall name sev n,
     (name, sev, n) ∈ dashboard_data rc <->
     exists counts,
       rc !! name = Some counts /\ counts !! sev = Some n /\ 0 < n) /\
  (forall name, is_Some (rc !! name) ->
     exists sev n, (name, sev, n) ∈ dashboard_data rc) /\
  (rc <> ∅ -> dashboard_data rc <> []).
Proof.
  intros H. split; [apply dashboard_data_spec|].
  apply counted_dashboard. destruct H as [->|H].
  - rewrite scan_directory_foldl.
    apply scan_fold_counted; [apply counts_ok_empty|apply counted_empty].
  - eapply replay_rows_counted; [apply counted_empty|exact H].
Qed.

Lemma dashboard_shows_every_risk_witness :
  let rc := risk_count (scan_directory (L "proj") OLLAMA [secret_file]
                                       empty_table [] []) in
  rc <> ∅ /\ dashboard_data rc <> [].
Proof.
  intros rc.
  assert (Hne : rc <> ∅).
  { intros H. apply (f_equal (fun m : RiskCount => size m)) in H.
    vm_compute in H. discriminate. }
  split; [exact Hne|].
  apply (dashboard_shows_every_risk (L "proj") OLLAMA [secret_file]
           empty_table [] [] rc); [left; reflexivity|exact Hne].
Defined.

End DashboardData.

(** ** Scanning after the stores are emptied *)

Section ClearAndScan.
Import Str Analysis Eff Completion PyRepr Database Orchestrator Loading.
Import ScanFacts Main.

(** X18. A scan that follows [clean_database] leaves the table and the
    session in agreement, whatever the table held and whatever the scanned
    directory: the table has one row for each file read and analysed, in
    the order of the listing; the risk count read back from the table is
    the one the scan returned; the results read back hold the returned
    results, and are exactly these when no write to the vector store
    failed; and when the collection could be emptied, every document in it
    carries the path and the risks text of a row of the table. The first
    run of a session resets the stores before it loads from them, so it
    always starts from no result and no count. *)
Theorem clear_and_scan_consistent (list_ok : bool) (scan_dir : str)
        (model_type : ModelType) (files : list FileObs) (t0 : Table)
        (collection0 : Collection) (log0 : list Event) :
  let st := clear_and_scan list_ok scan_dir model_type files t0 collection0
                           log0 in
  file_path <$> rows (db st)
  = f_path <$> filter (fun f => persisted model_type f = true) files /\
  load_risk_count_from_db (db st) = Some (risk_count st) /\
  (exists loaded,
     load_scan_results_from_db (db st) = Some loaded /\
     (loaded_of <$> results st) `sublist_of` loaded /\
     (Forall (fun f => f_add_ok f = true) files ->
      loaded = loaded_of <$> results st)) /\
  (list_ok = true ->
   forall d, d ∈ collection st ->
     exists r, r ∈ rows (db st) /\ row_from_extractor r /\ row_matches d r) /\
  first_run t0 collection0 = (Some [], Some ∅).
Proof.
  cbv zeta. unfold clear_and_scan, clean_database.
  rewrite scan_directory_foldl.
  match goal with |- context [foldl _ ?s files] => set (start := s) end.
  assert (Hrows0 : rows (db start) = []) by done.
  destruct (scan_fold model_type files start counts_ok_empty)
    as (written & Hrows & Hpaths & _ & Hrep & _).
  destruct (scan_fold_results model_type files start counts_ok_empty)
    as (written' & new_results & Hrows' & Hresults
        & loaded & Hload & Hsub & Heq).
  rewrite Hrows0 in Hrows, Hrows'. cbn [app] in Hrows, Hrows'.
  change (results start) with (@nil Result) in Hresults.
  cbn [app] in Hresults.
  change (risk_count start) with (∅ : RiskCount) in Hrep.
  split; [by rewrite Hrows|].
  split; [unfold load_risk_count_from_db; by rewrite Hrows|].
  split.
  { exists loaded. unfold load_scan_results_from_db.
    by rewrite Hrows', Hresults. }
  split; [|done].
  intros Hlist d Hd.
  assert (Hstart : forall d', d' ∈ collection start ->
            d' ∈ [] \/
            exists r, r ∈ rows (db start) /\ row_from_extractor r /\
                      row_matches d' r).
  { intros d' Hd'. left. unfold start in Hd'. cbn [collection] in Hd'.
    by rewrite Hlist in Hd'. }
  destruct (scan_fold_collection model_type [] files start counts_ok_empty
              Hstart d Hd) as [Hnil|Hr]; [|done].
  by apply elem_of_nil in Hnil.
Qed.

End ClearAndScan.
